(** * Cosmic neural network: point sampler, synapse scan and orbit camera

    A shallow embedding of [script.js]: the neuron loop and the synapse
    scan of [generateNeuralNetwork], the wheel listener and the camera
    part of [animate].

    JavaScript numbers are modelled as real numbers ([R]): the theorems
    below are statements about the exact arithmetic the script writes
    down.  Where the rounding of binary64 changes what the script does,
    the computation is given a second time on binary64 values (section
    "Binary64").  [Math.random] is modelled as an
    explicit sequence of draws consumed in call order.  The functions of
    the JavaScript runtime and of three.js that the script calls
    ([Math.cbrt], [Math.acos], [Vector3.distanceTo], ...) are modelled by
    their mathematical meaning. *)

From Stdlib Require Import Floats.
From Stdlib Require Import Reals Lra Lia List Arith ZArith Bool Sorted.
Import ListNotations.

Local Open Scope R_scope.

(** ** Numbers *)

(** The comparison [a < b] of the script, as a boolean. *)
Definition Rltb (a b : R) : bool := if Rlt_dec a b then true else false.

(** [Math.cbrt]: the real cube root, odd in its argument. *)
Definition cbrt (x : R) : R :=
  if Rlt_dec 0 x then exp (ln x / 3)
  else if Rlt_dec x 0 then - exp (ln (- x) / 3)
  else 0.

(** ** Configuration *)

Record Config := mkConfig {
  neuronCount : nat;
  connectionDistance : R
}.

(** The [CONFIG] object of the script (the rendering tunables are left out). *)
Definition CONFIG : Config :=
  {| neuronCount := 2000; connectionDistance := 15 |}.

(** ** Vectors *)

Record Vector3 := mkV { vx : R; vy : R; vz : R }.

(** [Vector3.length]. *)
Definition norm (p : Vector3) : R :=
  sqrt (vx p * vx p + vy p * vy p + vz p * vz p).

(** [Vector3.distanceTo]. *)
Definition distanceTo (a b : Vector3) : R :=
  sqrt ((vx a - vx b) * (vx a - vx b)
        + (vy a - vy b) * (vy a - vy b)
        + (vz a - vz b) * (vz a - vz b)).

(** ** [Math.random] as state

    A computation reads the sequence of draws [rand] and threads the number
    of draws made so far. *)

Definition Rand := nat -> R.

Definition M (A : Type) : Type := Rand -> nat -> A * nat.

Definition ret {A} (a : A) : M A := fun _ k => (a, k).

Definition bind {A B} (m : M A) (f : A -> M B) : M B :=
  fun rand k => let (a, k') := m rand k in f a rand k'.

(** One call of [Math.random()]. *)
Definition random : M R := fun rand k => (rand k, S k).

Notation "x <- m ;; f" := (bind m (fun x => f))
  (at level 61, m at next level, right associativity).

(** Every draw lies in [0, 1), as [Math.random] promises. *)
Definition uniform01 (rand : Rand) : Prop := forall k, 0 <= rand k < 1.

(** ** 1. Neurons *)

(** The value of a [THREE.Color]: three channels. *)
Record Color := mkColor { cr : R; cg : R; cb : R }.

(** The three attribute arrays filled by the first loop, flat as in the
    script: three entries per neuron in [positions] and [colors], one in
    [sizes]. *)
Record Buffers := mkBuffers {
  positions : list R;
  colors : list R;
  sizes : list R
}.

Definition emptyBuffers : Buffers :=
  {| positions := []; colors := []; sizes := [] |}.

Definition gold : Z := 0xffd700.
Definition cyan : Z := 0x00ffff.
Definition white : Z := 0xffffff.

(** The point of the sphere before flattening: lines 71-77. *)
Definition spherePoint (u1 u2 u3 : R) : Vector3 :=
  let r := 40 * cbrt u1 in
  let theta := u2 * PI * 2 in
  let phi := acos (2 * u3 - 1) in
  {| vx := r * sin phi * cos theta;
     vy := r * sin phi * sin theta;
     vz := r * cos phi |}.

(** [y *= 0.6]. *)
Definition flatten (p : Vector3) : Vector3 :=
  {| vx := vx p; vy := vy p * 0.6; vz := vz p |}.

(** The hex code chosen from [colorType]: lines 87-89. *)
Definition colorHex (colorType : R) : Z :=
  if Rltb 0.9 colorType then gold
  else if Rltb 0.6 colorType then cyan
  else white.

Section Neurons.

(** [color.setHex] of three.js: the channels of a colour given by its hex
    code.  The conversion belongs to the library; the script only passes
    the code and reads the channels back. *)
Variable setHex : Z -> Color.

(** One iteration of the neuron loop: five draws, seven pushes. *)
Definition neuronBody (b : Buffers) : M Buffers :=
  u1 <- random ;;
  u2 <- random ;;
  u3 <- random ;;
  let p := flatten (spherePoint u1 u2 u3) in
  colorType <- random ;;
  let color := setHex (colorHex colorType) in
  u5 <- random ;;
  ret {| positions := positions b ++ [vx p; vy p; vz p];
         colors := colors b ++ [cr color; cg color; cb color];
         sizes := sizes b ++ [u5 * 2 + 1] |}.

(** [for (let i = 0; i < n; i++) body]. *)
Fixpoint neuronLoop (n : nat) (b : Buffers) : M Buffers :=
  match n with
  | O => ret b
  | S n' => b' <- neuronBody b ;; neuronLoop n' b'
  end.

Definition generateNeurons (cfg : Config) (rand : Rand) : Buffers :=
  fst (neuronLoop (neuronCount cfg) emptyBuffers rand 0%nat).

End Neurons.

(** ** 2. Synapses *)

(** One emitted line segment.  [src] and [dst] are the indices [i] and [j]
    of the scan at the moment of the two pushes; [p1] and [p2] are the
    coordinates pushed into [linePositions]. *)
Record Connection := mkConnection {
  src : nat;
  dst : nat;
  p1 : Vector3;
  p2 : Vector3
}.

Definition endpoints (c : Connection) : nat * nat := (src c, dst c).

(** [v.set(positions[i * 3], positions[i * 3 + 1], positions[i * 3 + 2])].
    Reading past the end of a JavaScript array gives [undefined]; the
    vector then has no numeric value, which is [None] here. *)
Definition readVec (positions : list R) (i : nat) : option Vector3 :=
  match nth_error positions (i * 3),
        nth_error positions (i * 3 + 1),
        nth_error positions (i * 3 + 2) with
  | Some x, Some y, Some z => Some {| vx := x; vy := y; vz := z |}
  | _, _, _ => None
  end.

(** The colour of neuron [i] in the flat [colors] array. *)
Definition readColor (colors : list R) (i : nat) : option Color :=
  match nth_error colors (i * 3),
        nth_error colors (i * 3 + 1),
        nth_error colors (i * 3 + 2) with
  | Some x, Some y, Some z => Some {| cr := x; cg := y; cb := z |}
  | _, _, _ => None
  end.

(** The test [dist < CONFIG.connectionDistance] for the pair [(i, j)], with
    the segment it pushes when it succeeds.  A distance computed from
    [undefined] is NaN and the comparison is false.  The script reads the
    vector of [i] once, before the inner loop; the array is not written
    during the scan, so reading it again for every [j] gives the same
    vector. *)
Definition tryConnect (maxDistance : R) (positions : list R) (i j : nat)
  : option Connection :=
  match readVec positions i, readVec positions j with
  | Some a, Some b =>
      if Rltb (distanceTo a b) maxDistance
      then Some {| src := i; dst := j; p1 := a; p2 := b |}
      else None
  | _, _ => None
  end.

(** The limit written in the scan: [if (connections > 5) break]. *)
Definition maxDegreePerPoint : nat := 5.

(** The inner loop over the remaining indices [js], with the counter
    [connections]; [break] ends the recursion. *)
Fixpoint synapseInner (cap : nat) (maxDistance : R) (positions : list R)
    (i : nat) (js : list nat) (connections : nat) : list Connection :=
  match js with
  | [] => []
  | j :: js' =>
      match tryConnect maxDistance positions i j with
      | Some c =>
          let connections' := S connections in
          c :: (if (cap <? connections')%nat then []
                else synapseInner cap maxDistance positions i js' connections')
      | None => synapseInner cap maxDistance positions i js' connections
      end
  end.

(** The outer loop: [i] from 0, [j] from [i + 1], both below [n]. *)
Definition synapseScan (cap : nat) (maxDistance : R) (positions : list R)
    (n : nat) : list Connection :=
  flat_map
    (fun i => synapseInner cap maxDistance positions i
                (seq (S i) (n - S i)) 0%nat)
    (seq 0 n).

Definition generateSynapses (cfg : Config) (positions : list R)
  : list Connection :=
  synapseScan maxDegreePerPoint (connectionDistance cfg) positions
    (neuronCount cfg).

(** The flat array handed to the line geometry. *)
Definition linePositions (cs : list Connection) : list R :=
  flat_map
    (fun c => [vx (p1 c); vy (p1 c); vz (p1 c);
               vx (p2 c); vy (p2 c); vz (p2 c)])
    cs.

(** The data part of [generateNeuralNetwork]. *)
Definition generateNeuralNetwork (setHex : Z -> Color) (cfg : Config)
    (rand : Rand) : Buffers * list R :=
  let b := generateNeurons setHex cfg rand in
  (b, linePositions (generateSynapses cfg (positions b))).

(** ** 3. Interaction *)

(** The wheel listener: [targetRadius += e.deltaY * 0.1], then the clamp. *)
Definition wheel (targetRadius deltaY : R) : R :=
  let targetRadius := targetRadius + deltaY * 0.1 in
  Rmax 20 (Rmin 200 targetRadius).

(** [let targetRadius = 80]. *)
Definition initialTargetRadius : R := 80.

(** The listener applied to a sequence of events, oldest first. *)
Definition wheels (deltas : list R) (targetRadius : R) : R :=
  fold_left wheel deltas targetRadius.

(** ** 4. Camera *)

(** The camera part of [animate]: lines 188-194. *)
Definition cameraStep (time mouseX mouseY targetRadius : R)
    (position : Vector3) : Vector3 :=
  let speed := 0.1 in
  let angle := time * speed + mouseX * 0.01 in
  let x := vx position + (sin angle * targetRadius - vx position) * 0.05 in
  let z := vz position + (cos angle * targetRadius - vz position) * 0.05 in
  let y := vy position + (mouseY - vy position) * 0.05 in
  {| vx := x; vy := y; vz := z |}.

(** ** 5. The page as a state machine

    The variables the listeners and [animate] share, and the events that
    change them. *)

(** The [mousemove] listener: the pointer's offset from the centre of the
    window, scaled by 0.1. *)
Definition mouseMove (clientX clientY innerWidth innerHeight : R) : R * R :=
  ((clientX - innerWidth / 2) * 0.1, (clientY - innerHeight / 2) * 0.1).

Record World := mkWorld {
  mouseX : R;
  mouseY : R;
  targetRadius : R;
  cameraPosition : Vector3;
  neuronTime : R;
  synapseTime : R
}.

(** The values set while the script loads. *)
Definition initialWorld : World :=
  {| mouseX := 0;
     mouseY := 0;
     targetRadius := 80;
     cameraPosition := {| vx := 0; vy := 0; vz := 100 |};
     neuronTime := 0;
     synapseTime := 0 |}.

(** A [mousemove] with the window size read by the listener, a [wheel],
    or one animation frame with the value of [clock.getElapsedTime()]. *)
Inductive Event :=
| MouseMove (clientX clientY innerWidth innerHeight : R)
| Wheel (deltaY : R)
| Frame (time : R).

Definition handle (w : World) (e : Event) : World :=
  match e with
  | MouseMove clientX clientY innerWidth innerHeight =>
      let (x, y) := mouseMove clientX clientY innerWidth innerHeight in
      {| mouseX := x;
         mouseY := y;
         targetRadius := targetRadius w;
         cameraPosition := cameraPosition w;
         neuronTime := neuronTime w;
         synapseTime := synapseTime w |}
  | Wheel deltaY =>
      {| mouseX := mouseX w;
         mouseY := mouseY w;
         targetRadius := wheel (targetRadius w) deltaY;
         cameraPosition := cameraPosition w;
         neuronTime := neuronTime w;
         synapseTime := synapseTime w |}
  | Frame time =>
      {| mouseX := mouseX w;
         mouseY := mouseY w;
         targetRadius := targetRadius w;
         cameraPosition :=
           cameraStep time (mouseX w) (mouseY w) (targetRadius w)
             (cameraPosition w);
         neuronTime := time;
         synapseTime := time |}
  end.

(** The events handled in the order they arrive. *)
Definition run (events : list Event) (w : World) : World :=
  fold_left handle events w.

(** ** 6. Binary64

    The smoothing of one axis as the script computes it, every operation
    rounded to binary64; [0.05] is the double nearest to 0.05, as in the
    script. *)

#[local] Set Warnings "-inexact-float".

(** [position.k += (desired - position.k) * 0.05]: lines 192-194, where the
    desired value is [Math.sin(angle) * targetRadius],
    [Math.cos(angle) * targetRadius] or [mouseY]. *)
Definition smoothAxis64 (previous desired : float) : float :=
  (previous + (desired - previous) * 0.05)%float.

(** The same axis over a number of frames during which the desired value
    does not change (the height, while the pointer rests). *)
Fixpoint idleFrames64 (frames : nat) (desired previous : float) : float :=
  match frames with
  | O => previous
  | S frames' => idleFrames64 frames' desired (smoothAxis64 previous desired)
  end.

(** ** The specification's vocabulary *)

(** The colour categories of a Point and the hex code of each. *)
Inductive ColorCategory := Rare | Accent | Base.

Definition categoryHex (c : ColorCategory) : Z :=
  match c with
  | Rare => gold
  | Accent => cyan
  | Base => white
  end.

(** "top decile (>0.9) -> Rare, next band (>0.6) -> Accent, remainder -> Base". *)
Definition categoryOf (u : R) : ColorCategory :=
  if Rlt_dec 0.9 u then Rare
  else if Rlt_dec 0.6 u then Accent
  else Base.

(** The draws of neuron [i]: the loop makes five calls per iteration, so
    these are the calls [5 * i], ..., [5 * i + 4]. *)
Definition draw (rand : Rand) (i k : nat) : R := rand (5 * i + k)%nat.

(** Neuron [i] before and after the flattening. *)
Definition sphereNeuron (rand : Rand) (i : nat) : Vector3 :=
  spherePoint (draw rand i 0) (draw rand i 1) (draw rand i 2).

Definition neuronPosition (rand : Rand) (i : nat) : Vector3 :=
  flatten (sphereNeuron rand i).

Definition neuronSize (rand : Rand) (i : nat) : R := draw rand i 4 * 2 + 1.

(** The three coordinates of a vector, as they are pushed. *)
Definition coords (p : Vector3) : list R := [vx p; vy p; vz p].

(** What one iteration pushes when it starts at call number [base]. *)
Definition positionAt (rand : Rand) (base : nat) : Vector3 :=
  flatten (spherePoint (rand (base + 0)%nat) (rand (base + 1)%nat)
             (rand (base + 2)%nat)).

Definition hexAt (rand : Rand) (base : nat) : Z :=
  colorHex (rand (base + 3)%nat).

(** The three channels of a colour, as they are pushed. *)
Definition channels (c : Color) : list R := [cr c; cg c; cb c].

Definition sizeAt (rand : Rand) (base : nat) : R :=
  rand (base + 4)%nat * 2 + 1.

(** The constants of the camera controller. *)
Definition angularSpeed : R := 0.1.
Definition sensitivity : R := 0.01.
Definition smoothingFactor : R := 0.05.

(** "desired.x = sin(angle) * targetRadius, desired.z = cos(angle) *
    targetRadius, desired.y = pointerOffsetY". *)
Definition desiredPosition
    (elapsedTime pointerOffsetX pointerOffsetY targetRadius : R) : Vector3 :=
  let angle := elapsedTime * angularSpeed + pointerOffsetX * sensitivity in
  {| vx := sin angle * targetRadius;
     vy := pointerOffsetY;
     vz := cos angle * targetRadius |}.

(** "newAxis = previousAxis + (desiredAxis - previousAxis) * smoothingFactor". *)
Definition smoothed (previousAxis desiredAxis : R) : R :=
  previousAxis + (desiredAxis - previousAxis) * smoothingFactor.

(** [x] lies between [a] and [b], whichever is the larger. *)
Definition between (a b x : R) : Prop := Rmin a b <= x <= Rmax a b.

(** The scan order: [i] ascending, then [j] ascending. *)
Definition lexlt (a b : nat * nat) : Prop :=
  (fst a < fst b)%nat \/ (fst a = fst b /\ (snd a < snd b)%nat).

(** Whether the scan's test succeeds for the pair [(i, j)]. *)
Definition nearb (maxDistance : R) (positions : list R) (i j : nat) : bool :=
  match tryConnect maxDistance positions i j with
  | Some _ => true
  | None => false
  end.

(** The pairs the specification describes: for each [i] in order, the
    first [cap + 1] indices [j > i] within range, in order. *)
Definition discovered (cap : nat) (maxDistance : R) (positions : list R)
    (n : nat) : list (nat * nat) :=
  flat_map
    (fun i => map (pair i)
                (firstn (S cap)
                   (filter (nearb maxDistance positions i)
                      (seq (S i) (n - S i)))))
    (seq 0 n).

(** The connections of the output that start at [i]. *)
Definition originatedBy (i : nat) (cs : list Connection) : list Connection :=
  filter (fun c => (src c =? i)%nat) cs.

(** An unordered pair of indices, smaller index first. *)
Definition unordered (c : Connection) : nat * nat :=
  (Nat.min (src c) (dst c), Nat.max (src c) (dst c)).

(** The square of the camera's distance from the vertical axis. *)
Definition horizontalSq (p : Vector3) : R := vx p * vx p + vz p * vz p.

(** Whether the height offset a mouse event produces is at most [limit]
    in absolute value. *)
Definition pointerHeightWithin (limit : R) (e : Event) : Prop :=
  match e with
  | MouseMove clientX clientY innerWidth innerHeight =>
      Rabs (snd (mouseMove clientX clientY innerWidth innerHeight)) <= limit
  | _ => True
  end.

(** The index pairs the scan tests positively before index [j], for [i]. *)
Definition earlierNear (maxDistance : R) (positions : list R) (i j : nat)
  : nat :=
  length (filter (nearb maxDistance positions i) (seq (S i) (j - S i))).

(** The Euclidean distance of two points. *)
Definition euclidean (a b : Vector3) : R :=
  sqrt ((vx b - vx a) ^ 2 + (vy b - vy a) ^ 2 + (vz b - vz a) ^ 2).

(** "compute Euclidean distance; if below maxDistance". *)
Definition within (maxDistance : R) (a b : Vector3) : bool :=
  if Rlt_dec (euclidean a b) maxDistance then true else false.

(** The connections of a list of points, as the specification describes
    the builder: "for each point i in generation order, scan all points
    j > i; if [the distance is] below maxDistance, emit a Connection and
    increment a per-i counter; once the counter exceeds
    maxDegreePerPoint, stop scanning further j for this i".  So a point
    is joined to the first [maxDegreePerPoint + 1] later points within
    range, and the connections of an earlier point come first. *)
Fixpoint nestedScan (maxDistance : R) (maxDegreePerPoint : nat)
    (points : list Vector3) : list (Vector3 * Vector3) :=
  match points with
  | [] => []
  | p :: later =>
      map (pair p)
        (firstn (S maxDegreePerPoint) (filter (within maxDistance p) later))
      ++ nestedScan maxDistance maxDegreePerPoint later
  end.

(** The two ends of a connection, by value. *)
Definition ends (c : Connection) : Vector3 * Vector3 := (p1 c, p2 c).

(** The six numbers of a segment. *)
Definition segmentCoords (s : Vector3 * Vector3) : list R :=
  coords (fst s) ++ coords (snd s).

(** * Properties *)

(** ** Wheel *)

Lemma wheel_range (targetRadius deltaY : R) :
  20 <= wheel targetRadius deltaY <= 200.
Proof.
  unfold wheel, Rmax, Rmin.
  destruct (Rle_dec 200 (targetRadius + deltaY * 0.1));
    destruct (Rle_dec 20 _); lra.
Qed.

Lemma wheels_range (deltas : list R) :
  forall targetRadius,
    20 <= targetRadius <= 200 ->
    20 <= wheels deltas targetRadius <= 200.
Proof.
  induction deltas as [|d deltas IH]; intros r Hr; simpl.
  - exact Hr.
  - apply IH, wheel_range.
Qed.

Lemma wheel_big_scroll_up : wheel 80 (-1000) = 20.
Proof.
  unfold wheel, Rmax, Rmin.
  destruct (Rle_dec 200 (80 + -1000 * 0.1));
    destruct (Rle_dec 20 _); lra.
Qed.

(** C4.  After any wheel event the target radius lies in [20, 200],
    whatever the value before and however large the delta; so it does
    after every sequence of events from the initial value 80; and a delta
    of -1000 at radius 80 gives exactly 20. *)
Theorem targetRadius_stays_in_range :
  (forall targetRadius deltaY, 20 <= wheel targetRadius deltaY <= 200)
  /\ (forall deltas, 20 <= wheels deltas initialTargetRadius <= 200)
  /\ wheel 80 (-1000) = 20.
Proof.
  split; [exact wheel_range|].
  split; [|exact wheel_big_scroll_up].
  intros deltas. apply wheels_range. unfold initialTargetRadius. lra.
Qed.

(** ** Camera *)

Lemma cameraStep_eq (time mouseX mouseY targetRadius : R) (position : Vector3) :
  cameraStep time mouseX mouseY targetRadius position
  = {| vx := smoothed (vx position)
               (vx (desiredPosition time mouseX mouseY targetRadius));
       vy := smoothed (vy position)
               (vy (desiredPosition time mouseX mouseY targetRadius));
       vz := smoothed (vz position)
               (vz (desiredPosition time mouseX mouseY targetRadius)) |}.
Proof. reflexivity. Qed.

Lemma desiredPosition_rest (targetRadius : R) :
  desiredPosition 0 0 0 targetRadius = {| vx := 0; vy := 0; vz := targetRadius |}.
Proof.
  unfold desiredPosition, angularSpeed, sensitivity.
  replace (0 * 0.1 + 0 * 0.01) with 0 by lra.
  rewrite sin_0, cos_0. f_equal; lra.
Qed.

Lemma distanceTo_along_z (a b : R) :
  b <= a ->
  distanceTo {| vx := 0; vy := 0; vz := a |} {| vx := 0; vy := 0; vz := b |}
  = a - b.
Proof.
  intros Hab. unfold distanceTo; simpl.
  replace ((0 - 0) * (0 - 0) + (0 - 0) * (0 - 0) + (a - b) * (a - b))
    with ((a - b) * (a - b)) by lra.
  apply sqrt_square. lra.
Qed.

(** C3.  One camera step sets each axis to
    [previous + (desired - previous) * 0.05], independently of the other
    axes, where the desired position is
    [(sin angle * targetRadius, pointerOffsetY, cos angle * targetRadius)]
    and [angle = elapsedTime * 0.1 + pointerOffsetX * 0.01].  At time 0,
    pointer offsets 0, target radius 80 and previous position (0, 0, 100)
    the desired position is (0, 0, 80), the step moves every axis by
    exactly 0.05 of its delta, to (0, 0, 99), and the new position is
    strictly closer to (0, 0, 80) than the previous one. *)
Theorem cameraStep_exponential_smoothing :
  (forall elapsedTime pointerOffsetX pointerOffsetY targetRadius previous,
     let desired :=
       desiredPosition elapsedTime pointerOffsetX pointerOffsetY targetRadius in
     let angle := elapsedTime * angularSpeed + pointerOffsetX * sensitivity in
     desired = {| vx := sin angle * targetRadius;
                  vy := pointerOffsetY;
                  vz := cos angle * targetRadius |}
     /\ cameraStep elapsedTime pointerOffsetX pointerOffsetY targetRadius previous
        = {| vx := vx previous + (vx desired - vx previous) * 0.05;
             vy := vy previous + (vy desired - vy previous) * 0.05;
             vz := vz previous + (vz desired - vz previous) * 0.05 |})
  /\ (let previous := {| vx := 0; vy := 0; vz := 100 |} in
      let target := {| vx := 0; vy := 0; vz := 80 |} in
      let new := cameraStep 0 0 0 80 previous in
      desiredPosition 0 0 0 80 = target
      /\ new = {| vx := 0; vy := 0; vz := 99 |}
      /\ vx new - vx previous = 0.05 * (vx target - vx previous)
      /\ vy new - vy previous = 0.05 * (vy target - vy previous)
      /\ vz new - vz previous = 0.05 * (vz target - vz previous)
      /\ distanceTo new target < distanceTo previous target).
Proof.
  split.
  - intros. split; reflexivity.
  - cbv zeta.
    assert (Hnew : cameraStep 0 0 0 80 {| vx := 0; vy := 0; vz := 100 |}
                   = {| vx := 0; vy := 0; vz := 99 |}).
    { rewrite cameraStep_eq, desiredPosition_rest. unfold smoothed, smoothingFactor.
      simpl. f_equal; lra. }
    rewrite Hnew, desiredPosition_rest. simpl.
    repeat split; try lra.
    rewrite !distanceTo_along_z by lra. lra.
Qed.

Lemma smoothed_between (previous desired : R) :
  between previous desired (smoothed previous desired).
Proof.
  unfold between, smoothed, smoothingFactor, Rmin, Rmax.
  destruct (Rle_dec previous desired); lra.
Qed.

Lemma smoothed_remaining (previous desired : R) :
  smoothed previous desired - desired = 0.95 * (previous - desired).
Proof. unfold smoothed, smoothingFactor. lra. Qed.

Lemma smoothed_not_farther (previous desired : R) :
  Rabs (smoothed previous desired - desired) <= Rabs (previous - desired).
Proof.
  rewrite smoothed_remaining, Rabs_mult.
  rewrite (Rabs_pos_eq 0.95) by lra.
  pose proof (Rabs_pos (previous - desired)). lra.
Qed.

(** C8, as amended.  The smoothing with factor 0.05 never overshoots: on
    every axis the new camera coordinate lies between the previous
    coordinate and the desired one (inclusive), and it is never farther
    from the desired coordinate than the previous coordinate was. *)
Theorem cameraStep_never_overshoots
    (time mouseX mouseY targetRadius : R) (previous : Vector3) :
  let desired := desiredPosition time mouseX mouseY targetRadius in
  let new := cameraStep time mouseX mouseY targetRadius previous in
  0 < 0.05 < 1
  /\ between (vx previous) (vx desired) (vx new)
  /\ between (vy previous) (vy desired) (vy new)
  /\ between (vz previous) (vz desired) (vz new)
  /\ Rabs (vx new - vx desired) <= Rabs (vx previous - vx desired)
  /\ Rabs (vy new - vy desired) <= Rabs (vy previous - vy desired)
  /\ Rabs (vz new - vz desired) <= Rabs (vz previous - vz desired).
Proof.
  cbv zeta. rewrite cameraStep_eq. cbn [vx vy vz].
  split; [lra|].
  repeat split; try apply smoothed_between; apply smoothed_not_farther.
Qed.

(** C8 as first stated, with "strictly smaller whenever they differ", does
    not hold of the values the script computes.  With the pointer resting
    at height offset 16 the camera's height, started at 0, is
    15.999999999999982 after 669 frames (ten units in the last place below
    16); the next update rounds to the same value, so the height differs
    from the desired one and gets no closer. *)
Lemma smoothing_stalls_below_target :
  let previous := idleFrames64 669 16 0 in
  let new := smoothAxis64 previous 16 in
  PrimFloat.eqb previous 0x1.ffffffffffff6p+3 = true
  /\ PrimFloat.eqb previous 16 = false
  /\ PrimFloat.eqb new previous = true
  /\ PrimFloat.ltb (PrimFloat.abs (new - 16)) (PrimFloat.abs (previous - 16))
     = false.
Proof. vm_compute. repeat split. Qed.

(** ** Cube root *)

Lemma cbrt_cube (x : R) : cbrt x * cbrt x * cbrt x = x.
Proof.
  assert (E : forall y, 0 < y -> exp (ln y / 3) * exp (ln y / 3) * exp (ln y / 3) = y).
  { intros y Hy. rewrite <- !exp_plus.
    replace (ln y / 3 + ln y / 3 + ln y / 3) with (ln y) by lra.
    now apply exp_ln. }
  unfold cbrt.
  destruct (Rlt_dec 0 x) as [Hpos|Hnpos].
  - now apply E.
  - destruct (Rlt_dec x 0) as [Hneg|Hnneg].
    + assert (Hy : 0 < - x) by lra. specialize (E _ Hy). lra.
    + lra.
Qed.

Lemma cbrt_unit_interval (u : R) : 0 <= u < 1 -> 0 <= cbrt u < 1.
Proof.
  intros [H0 H1]. unfold cbrt.
  destruct (Rlt_dec 0 u) as [Hpos|Hnpos].
  - split.
    + left. apply exp_pos.
    + rewrite <- exp_0. apply exp_increasing.
      assert (ln u < ln 1) by (apply ln_increasing; lra).
      rewrite ln_1 in *. lra.
  - destruct (Rlt_dec u 0); lra.
Qed.

(** ** Neurons *)

Lemma spherePoint_norm_sq (u1 u2 u3 : R) :
  let p := spherePoint u1 u2 u3 in
  vx p * vx p + vy p * vy p + vz p * vz p
  = (40 * cbrt u1) * (40 * cbrt u1).
Proof.
  cbv zeta. unfold spherePoint. cbn [vx vy vz].
  set (phi := acos (2 * u3 - 1)). set (theta := u2 * PI * 2).
  set (r := 40 * cbrt u1).
  pose proof (sin2_cos2 phi) as Hphi. pose proof (sin2_cos2 theta) as Htheta.
  unfold Rsqr in Hphi, Htheta.
  replace (r * sin phi * cos theta * (r * sin phi * cos theta)
           + r * sin phi * sin theta * (r * sin phi * sin theta)
           + r * cos phi * (r * cos phi))
    with (r * r * (sin phi * sin phi
                   * (sin theta * sin theta + cos theta * cos theta)
                   + cos phi * cos phi)) by ring.
  rewrite Htheta, Rmult_1_r, Hphi. ring.
Qed.

Lemma spherePoint_norm (u1 u2 u3 : R) :
  0 <= u1 < 1 -> norm (spherePoint u1 u2 u3) = 40 * cbrt u1.
Proof.
  intros Hu. unfold norm. rewrite spherePoint_norm_sq.
  apply sqrt_square. pose proof (cbrt_unit_interval u1 Hu). lra.
Qed.

Lemma flatten_norm (p : Vector3) : norm (flatten p) <= norm p.
Proof.
  unfold norm, flatten. cbn [vx vy vz].
  apply sqrt_le_1_alt. nra.
Qed.

Lemma flat_map_map {A B C} (f : B -> list C) (g : A -> B) (l : list A) :
  flat_map f (map g l) = flat_map (fun x => f (g x)) l.
Proof.
  induction l as [|x l IH]; simpl; [reflexivity|now rewrite IH].
Qed.

Lemma neuronBody_eq (setHex : Z -> Color) (b : Buffers) (rand : Rand) (k : nat) :
  neuronBody setHex b rand k
  = ({| positions := positions b ++ coords (positionAt rand k);
        colors := colors b ++ channels (setHex (hexAt rand k));
        sizes := sizes b ++ [sizeAt rand k] |},
     (k + 5)%nat).
Proof.
  unfold neuronBody, bind, random, ret, positionAt, hexAt, sizeAt, coords,
    channels.
  replace (k + 0)%nat with k by lia.
  replace (k + 1)%nat with (S k) by lia.
  replace (k + 2)%nat with (S (S k)) by lia.
  replace (k + 3)%nat with (S (S (S k))) by lia.
  replace (k + 4)%nat with (S (S (S (S k)))) by lia.
  replace (k + 5)%nat with (S (S (S (S (S k))))) by lia.
  reflexivity.
Qed.

(** The neuron loop in closed form: after [n] iterations started at call
    [k], the buffers have grown by the neurons drawn from calls
    [k], [k + 5], ... *)
Lemma neuronLoop_closed (setHex : Z -> Color) (rand : Rand) (n : nat) :
  forall (b : Buffers) (k : nat),
    neuronLoop setHex n b rand k
    = ({| positions :=
            positions b
            ++ flat_map (fun i => coords (positionAt rand (k + 5 * i)))
                 (seq 0 n);
          colors :=
            colors b
            ++ flat_map (fun i => channels (setHex (hexAt rand (k + 5 * i))))
                 (seq 0 n);
          sizes :=
            sizes b ++ map (fun i => sizeAt rand (k + 5 * i)) (seq 0 n) |},
       (k + 5 * n)%nat).
Proof.
  induction n as [|n IH]; intros b k.
  - simpl. unfold ret. rewrite !app_nil_r, Nat.add_0_r. now destruct b.
  - cbn [neuronLoop]. unfold bind at 1. rewrite neuronBody_eq, IH.
    cbn [positions colors sizes seq flat_map map].
    rewrite <- (seq_shift n 0), !flat_map_map, !map_map, <- !app_assoc.
    f_equal; [|lia].
    f_equal; f_equal.
    + f_equal.
      * do 2 f_equal. lia.
      * apply flat_map_ext. intros i. do 2 f_equal. lia.
    + f_equal.
      * do 3 f_equal. lia.
      * apply flat_map_ext. intros i. do 3 f_equal. lia.
    + cbn [app]. f_equal.
      * f_equal. lia.
      * apply map_ext. intros i. f_equal. lia.
Qed.

Lemma generateNeurons_closed (setHex : Z -> Color) (cfg : Config) (rand : Rand) :
  generateNeurons setHex cfg rand
  = {| positions :=
         flat_map coords (map (neuronPosition rand) (seq 0 (neuronCount cfg)));
       colors :=
         flat_map channels
           (map (fun i => setHex (colorHex (draw rand i 3)))
              (seq 0 (neuronCount cfg)));
       sizes := map (neuronSize rand) (seq 0 (neuronCount cfg)) |}.
Proof.
  unfold generateNeurons. rewrite neuronLoop_closed. cbn [fst emptyBuffers
    positions colors sizes app].
  now rewrite !flat_map_map.
Qed.

Lemma readVec_coords (l : list Vector3) :
  forall i, readVec (flat_map coords l) i = nth_error l i.
Proof.
  induction l as [|[x y z] l IH]; intros i.
  - unfold readVec. cbn [flat_map]. now rewrite !nth_error_nil; destruct i.
  - destruct i as [|i].
    + reflexivity.
    + specialize (IH i). unfold readVec in *.
      cbn [flat_map coords vx vy vz app].
      replace (S i * 3)%nat with (S (S (S (i * 3)))) by lia.
      replace (S (S (S (i * 3))) + 1)%nat with (S (S (S (i * 3 + 1)))) by lia.
      replace (S (S (S (i * 3))) + 2)%nat with (S (S (S (i * 3 + 2)))) by lia.
      cbn [nth_error]. exact IH.
Qed.

Lemma readColor_channels (l : list Color) :
  forall i, readColor (flat_map channels l) i = nth_error l i.
Proof.
  induction l as [|[x y z] l IH]; intros i.
  - unfold readColor. cbn [flat_map]. now rewrite !nth_error_nil; destruct i.
  - destruct i as [|i].
    + reflexivity.
    + specialize (IH i). unfold readColor in *.
      cbn [flat_map channels cr cg cb app].
      replace (S i * 3)%nat with (S (S (S (i * 3)))) by lia.
      replace (S (S (S (i * 3))) + 1)%nat with (S (S (S (i * 3 + 1)))) by lia.
      replace (S (S (S (i * 3))) + 2)%nat with (S (S (S (i * 3 + 2)))) by lia.
      cbn [nth_error]. exact IH.
Qed.

Lemma nth_error_map_seq {A} (f : nat -> A) (n : nat) :
  forall a i, (i < n)%nat -> nth_error (map f (seq a n)) i = Some (f (a + i)%nat).
Proof.
  induction n as [|n IH]; intros a i Hi; [lia|].
  destruct i as [|i]; cbn [seq map nth_error].
  - now rewrite Nat.add_0_r.
  - rewrite IH by lia. f_equal. f_equal. lia.
Qed.

Lemma generated_position (setHex : Z -> Color) (cfg : Config) (rand : Rand)
    (i : nat) :
  (i < neuronCount cfg)%nat ->
  readVec (positions (generateNeurons setHex cfg rand)) i
  = Some (neuronPosition rand i).
Proof.
  intros Hi. rewrite generateNeurons_closed. cbn [positions].
  rewrite readVec_coords. now rewrite nth_error_map_seq.
Qed.

Lemma generated_color (setHex : Z -> Color) (cfg : Config) (rand : Rand)
    (i : nat) :
  (i < neuronCount cfg)%nat ->
  readColor (colors (generateNeurons setHex cfg rand)) i
  = Some (setHex (colorHex (draw rand i 3))).
Proof.
  intros Hi. rewrite generateNeurons_closed. cbn [colors].
  rewrite readColor_channels. now rewrite nth_error_map_seq.
Qed.

Lemma generated_size (setHex : Z -> Color) (cfg : Config) (rand : Rand)
    (i : nat) :
  (i < neuronCount cfg)%nat ->
  nth_error (sizes (generateNeurons setHex cfg rand)) i
  = Some (neuronSize rand i).
Proof.
  intros Hi. rewrite generateNeurons_closed. cbn [sizes].
  now rewrite nth_error_map_seq.
Qed.

(** The arrays hold three, three and one entries per neuron. *)
Lemma generated_lengths (setHex : Z -> Color) (cfg : Config) (rand : Rand) :
  let b := generateNeurons setHex cfg rand in
  length (positions b) = (3 * neuronCount cfg)%nat
  /\ length (colors b) = (3 * neuronCount cfg)%nat
  /\ length (sizes b) = neuronCount cfg.
Proof.
  cbv zeta. rewrite generateNeurons_closed. cbn [positions colors sizes].
  assert (E : forall (A : Type) (f : A -> list R) (l : list A),
             (forall x, length (f x) = 3%nat) ->
             length (flat_map f l) = (3 * length l)%nat).
  { intros A f l Hf. induction l as [|x l IH]; cbn [flat_map length];
      [reflexivity|rewrite length_app, Hf, IH; lia]. }
  rewrite !E by reflexivity. now rewrite !length_map, length_seq.
Qed.

Lemma uniform01_draw (rand : Rand) (i k : nat) :
  uniform01 rand -> 0 <= draw rand i k < 1.
Proof. intros H. apply H. Qed.

(** C6.  Every generated Point is drawn inside the sphere of radius 40:
    the position stored for neuron [i] is the flattening of the point
    [(r sin phi cos theta, r sin phi sin theta, r cos phi)] with
    [r = 40 * cbrt u], [theta] in [0, 2 pi) and [phi = acos (2 u' - 1)],
    where [u], [u'] and the draw behind [theta] are the neuron's first
    three draws; the norm of that point, before flattening, is [r], and
    [r] is at most 40. *)
Theorem sphere_point_within_radius
    (setHex : Z -> Color) (cfg : Config) (rand : Rand) (i : nat) :
  uniform01 rand ->
  (i < neuronCount cfg)%nat ->
  let u := draw rand i 0 in
  let theta := draw rand i 1 * PI * 2 in
  let phi := acos (2 * draw rand i 2 - 1) in
  let r := 40 * cbrt u in
  let p := {| vx := r * sin phi * cos theta;
              vy := r * sin phi * sin theta;
              vz := r * cos phi |} in
  readVec (positions (generateNeurons setHex cfg rand)) i = Some (flatten p)
  /\ 0 <= theta < 2 * PI
  /\ norm p = r
  /\ r <= 40
  /\ norm p <= 40.
Proof.
  intros Hrand Hi. cbv zeta.
  pose proof (uniform01_draw rand i 0 Hrand) as Hu.
  pose proof (uniform01_draw rand i 1 Hrand) as Hu2.
  pose proof (spherePoint_norm (draw rand i 0) (draw rand i 1) (draw rand i 2) Hu)
    as Hnorm.
  unfold spherePoint in Hnorm. cbv zeta in Hnorm.
  pose proof (cbrt_unit_interval _ Hu) as Hc.
  pose proof PI_RGT_0 as Hpi.
  split; [exact (generated_position setHex cfg rand i Hi)|].
  split; [nra|].
  split; [exact Hnorm|].
  split; [lra|].
  rewrite Hnorm. lra.
Qed.

Lemma sphere_point_within_radius_witness :
  norm (spherePoint (1/2) (1/2) (1/2)) <= 40.
Proof.
  assert (Hrand : uniform01 (fun _ => 1/2)) by (intros k; lra).
  assert (Hi : (0 < neuronCount CONFIG)%nat) by (unfold CONFIG; cbn; lia).
  pose proof (sphere_point_within_radius (fun _ => mkColor 0 0 0) CONFIG
                (fun _ => 1/2) 0%nat Hrand Hi) as H.
  cbv zeta in H. exact (proj2 (proj2 (proj2 (proj2 H)))).
Defined.

(** C10.  The flattening [y *= 0.6] never moves a point away from the
    origin, so every stored position, after the flattening, still has norm
    at most 40. *)
Theorem flattened_point_within_radius
    (setHex : Z -> Color) (cfg : Config) (rand : Rand) (i : nat) :
  uniform01 rand ->
  (i < neuronCount cfg)%nat ->
  let before := sphereNeuron rand i in
  let after := {| vx := vx before; vy := vy before * 0.6; vz := vz before |} in
  readVec (positions (generateNeurons setHex cfg rand)) i = Some after
  /\ norm after <= norm before
  /\ norm after <= 40.
Proof.
  intros Hrand Hi. cbv zeta.
  change {| vx := vx (sphereNeuron rand i);
            vy := vy (sphereNeuron rand i) * 0.6;
            vz := vz (sphereNeuron rand i) |}
    with (flatten (sphereNeuron rand i)).
  split; [exact (generated_position setHex cfg rand i Hi)|].
  pose proof (flatten_norm (sphereNeuron rand i)) as Hflat.
  split; [exact Hflat|].
  pose proof (uniform01_draw rand i 0 Hrand) as Hu.
  unfold sphereNeuron in *. rewrite spherePoint_norm in Hflat by exact Hu.
  pose proof (cbrt_unit_interval _ Hu). lra.
Qed.

Lemma flattened_point_within_radius_witness :
  norm (flatten (spherePoint (1/2) (1/2) (1/2))) <= 40.
Proof.
  assert (Hrand : uniform01 (fun _ => 1/2)) by (intros k; lra).
  assert (Hi : (0 < neuronCount CONFIG)%nat) by (unfold CONFIG; cbn; lia).
  exact (proj2 (proj2 (flattened_point_within_radius (fun _ => mkColor 0 0 0)
                         CONFIG (fun _ => 1/2) 0%nat Hrand Hi))).
Defined.

(** ** Colours and sizes *)

Lemma colorHex_category (u : R) : colorHex u = categoryHex (categoryOf u).
Proof.
  unfold colorHex, categoryOf, Rltb.
  destruct (Rlt_dec 0.9 u); [reflexivity|].
  destruct (Rlt_dec 0.6 u); reflexivity.
Qed.

Lemma categoryOf_Rare (u : R) : categoryOf u = Rare <-> 0.9 < u.
Proof.
  unfold categoryOf.
  destruct (Rlt_dec 0.9 u); [tauto|].
  destruct (Rlt_dec 0.6 u); split; (discriminate || lra).
Qed.

Lemma categoryOf_Accent (u : R) : categoryOf u = Accent <-> 0.6 < u <= 0.9.
Proof.
  unfold categoryOf.
  destruct (Rlt_dec 0.9 u); [split; (discriminate || lra)|].
  destruct (Rlt_dec 0.6 u); split; (discriminate || lra || (intros; reflexivity)).
Qed.

Lemma categoryOf_Base (u : R) : categoryOf u = Base <-> u <= 0.6.
Proof.
  unfold categoryOf.
  destruct (Rlt_dec 0.9 u); [split; (discriminate || lra)|].
  destruct (Rlt_dec 0.6 u); split; (discriminate || lra || (intros; reflexivity)).
Qed.

(** C7.  The colour of every generated Point is decided by one draw [u],
    the neuron's fourth: Rare (gold) when [u > 0.9], otherwise Accent
    (cyan) when [u > 0.6], otherwise Base (white); and its size is the
    neuron's fifth draw scaled to [draw * 2 + 1], a value in [1, 3]. *)
Theorem color_and_size_of_point
    (setHex : Z -> Color) (cfg : Config) (rand : Rand) (i : nat) :
  uniform01 rand ->
  (i < neuronCount cfg)%nat ->
  let u := draw rand i 3 in
  let size := draw rand i 4 * 2 + 1 in
  readColor (colors (generateNeurons setHex cfg rand)) i
  = Some (setHex (if Rlt_dec 0.9 u then 0xffd700%Z
                  else if Rlt_dec 0.6 u then 0x00ffff%Z
                  else 0xffffff%Z))
  /\ readColor (colors (generateNeurons setHex cfg rand)) i
     = Some (setHex (categoryHex (categoryOf u)))
  /\ (categoryOf u = Rare <-> 0.9 < u)
  /\ (categoryOf u = Accent <-> 0.6 < u <= 0.9)
  /\ (categoryOf u = Base <-> u <= 0.6)
  /\ nth_error (sizes (generateNeurons setHex cfg rand)) i = Some size
  /\ 1 <= size <= 3.
Proof.
  intros Hrand Hi. cbv zeta.
  rewrite generated_color, generated_size by exact Hi.
  split.
  { do 2 f_equal. unfold colorHex, Rltb.
    destruct (Rlt_dec 0.9 (draw rand i 3)); [reflexivity|].
    destruct (Rlt_dec 0.6 (draw rand i 3)); reflexivity. }
  split; [now rewrite colorHex_category|].
  split; [apply categoryOf_Rare|].
  split; [apply categoryOf_Accent|].
  split; [apply categoryOf_Base|].
  split; [reflexivity|].
  pose proof (uniform01_draw rand i 4 Hrand). lra.
Qed.

Lemma color_and_size_of_point_witness :
  readColor (colors (generateNeurons (fun _ => mkColor 1 1 1) CONFIG
                       (fun _ => 1/2))) 0
  = Some (mkColor 1 1 1)
  /\ categoryOf (1/2) = Base
  /\ 1 <= 1/2 * 2 + 1 <= 3.
Proof.
  assert (Hrand : uniform01 (fun _ => 1/2)) by (intros k; lra).
  assert (Hi : (0 < neuronCount CONFIG)%nat) by (unfold CONFIG; cbn; lia).
  pose proof (color_and_size_of_point (fun _ => mkColor 1 1 1) CONFIG
                (fun _ => 1/2) 0%nat Hrand Hi) as H.
  cbv zeta in H.
  destruct H as (_ & Hcolor & _ & _ & Hbase & _ & Hsize).
  split; [exact Hcolor|]. split; [|exact Hsize].
  apply Hbase. unfold draw. lra.
Defined.

(** ** Synapse scan *)

Lemma Rltb_lt (a b : R) : Rltb a b = true <-> a < b.
Proof.
  unfold Rltb. destruct (Rlt_dec a b); split; (discriminate || tauto).
Qed.

(** What a successful test pushes. *)
Lemma tryConnect_Some (maxDistance : R) (positions : list R) (i j : nat)
    (c : Connection) :
  tryConnect maxDistance positions i j = Some c ->
  src c = i /\ dst c = j
  /\ readVec positions i = Some (p1 c)
  /\ readVec positions j = Some (p2 c)
  /\ distanceTo (p1 c) (p2 c) < maxDistance.
Proof.
  unfold tryConnect.
  destruct (readVec positions i) as [a|]; [|discriminate].
  destruct (readVec positions j) as [b|]; [|discriminate].
  destruct (Rltb (distanceTo a b) maxDistance) eqn:Hlt; [|discriminate].
  intros [= <-]. cbn. apply Rltb_lt in Hlt. tauto.
Qed.

(** Every segment of the inner loop comes from a successful test on one of
    the scanned indices. *)
Lemma synapseInner_In (cap : nat) (maxDistance : R) (positions : list R)
    (i : nat) (js : list nat) :
  forall connections c,
    In c (synapseInner cap maxDistance positions i js connections) ->
    exists j, In j js /\ tryConnect maxDistance positions i j = Some c.
Proof.
  induction js as [|j js IH]; intros k c Hin; cbn [synapseInner] in Hin.
  - contradiction.
  - destruct (tryConnect maxDistance positions i j) as [c'|] eqn:Htry.
    + destruct Hin as [<-|Hin].
      * exists j. split; [now left|exact Htry].
      * destruct (cap <? S k)%nat; [contradiction|].
        destruct (IH _ _ Hin) as (j' & Hj' & Hc). exists j'. split; [now right|exact Hc].
    + destruct (IH _ _ Hin) as (j' & Hj' & Hc). exists j'. split; [now right|exact Hc].
Qed.

(** The inner loop keeps the indices in range, in order, up to the point
    where the counter passes the cap. *)
Lemma synapseInner_endpoints (cap : nat) (maxDistance : R) (positions : list R)
    (i : nat) (js : list nat) :
  forall connections,
    (connections <= cap)%nat ->
    map endpoints (synapseInner cap maxDistance positions i js connections)
    = map (pair i)
        (firstn (S cap - connections)
           (filter (nearb maxDistance positions i) js)).
Proof.
  induction js as [|j js IH]; intros k Hk; cbn [synapseInner filter].
  - now rewrite firstn_nil.
  - unfold nearb at 1.
    destruct (tryConnect maxDistance positions i j) as [c|] eqn:Htry.
    + destruct (tryConnect_Some _ _ _ _ _ Htry) as (Hs & Hd & _).
      replace (S cap - k)%nat with (S (cap - k)) by lia.
      cbn [firstn map]. unfold endpoints at 1. rewrite Hs, Hd. f_equal.
      destruct (Nat.ltb_spec cap (S k)) as [Hbreak|Hgo].
      * replace (cap - k)%nat with 0%nat by lia. reflexivity.
      * now rewrite IH by lia.
    + now apply IH.
Qed.

Lemma synapseInner_length (cap : nat) (maxDistance : R) (positions : list R)
    (i : nat) (js : list nat) :
  (length (synapseInner cap maxDistance positions i js 0) <= S cap)%nat.
Proof.
  rewrite <- (length_map endpoints), synapseInner_endpoints by lia.
  rewrite length_map, Nat.sub_0_r. apply firstn_le_length.
Qed.

Lemma synapseInner_src (cap : nat) (maxDistance : R) (positions : list R)
    (i : nat) (js : list nat) (connections : nat) :
  Forall (fun c => src c = i)
    (synapseInner cap maxDistance positions i js connections).
Proof.
  apply Forall_forall. intros c Hin.
  destruct (synapseInner_In _ _ _ _ _ _ _ Hin) as (j & _ & Htry).
  now destruct (tryConnect_Some _ _ _ _ _ Htry).
Qed.

(** *** Sorted lists *)

Section StronglySortedLists.
Context {A : Type} (lt : A -> A -> Prop).

Lemma StronglySorted_app (l1 l2 : list A) :
  StronglySorted lt l1 ->
  StronglySorted lt l2 ->
  (forall x y, In x l1 -> In y l2 -> lt x y) ->
  StronglySorted lt (l1 ++ l2).
Proof.
  induction l1 as [|a l1 IH]; intros H1 H2 Hcross; cbn [app].
  - exact H2.
  - apply StronglySorted_inv in H1 as [H1 Ha].
    constructor.
    + apply IH; [exact H1|exact H2|].
      intros x y Hx Hy. apply Hcross; [now right|exact Hy].
    + apply Forall_app. split; [exact Ha|].
      apply Forall_forall. intros y Hy. apply Hcross; [now left|exact Hy].
Qed.

Lemma StronglySorted_filter (f : A -> bool) (l : list A) :
  StronglySorted lt l -> StronglySorted lt (filter f l).
Proof.
  induction 1 as [|a l Hl IH Ha]; cbn [filter]; [constructor|].
  destruct (f a); [|exact IH].
  constructor; [exact IH|].
  apply Forall_forall. intros y Hy. apply filter_In in Hy as [Hy _].
  revert y Hy. now apply Forall_forall.
Qed.

Lemma In_firstn (n : nat) (l : list A) (x : A) :
  In x (firstn n l) -> In x l.
Proof.
  revert l. induction n as [|n IH]; intros [|a l]; cbn [firstn];
    try contradiction.
  intros [->|Hx]; [now left|right; now apply IH].
Qed.

Lemma StronglySorted_firstn (n : nat) (l : list A) :
  StronglySorted lt l -> StronglySorted lt (firstn n l).
Proof.
  intros Hl. revert n.
  induction Hl as [|a l Hl IH Ha]; intros [|n]; cbn [firstn];
    try constructor.
  - apply IH.
  - apply Forall_forall. intros y Hy. apply In_firstn in Hy.
    revert y Hy. now apply Forall_forall.
Qed.

Lemma StronglySorted_NoDup (l : list A) :
  (forall x, ~ lt x x) -> StronglySorted lt l -> NoDup l.
Proof.
  intros Hirr. induction 1 as [|a l Hl IH Ha]; constructor; [|exact IH].
  intros Hin. apply (Hirr a). revert a Hin Ha.
  intros a Hin Ha. rewrite Forall_forall in Ha. now apply Ha.
Qed.
End StronglySortedLists.

Lemma StronglySorted_seq (n : nat) :
  forall a, StronglySorted Nat.lt (seq a n).
Proof.
  induction n as [|n IH]; intros a; cbn [seq]; constructor.
  - apply IH.
  - apply Forall_forall. intros j Hj. apply in_seq in Hj. unfold Nat.lt. lia.
Qed.

Lemma lexlt_irrefl (a : nat * nat) : ~ lexlt a a.
Proof. unfold lexlt. lia. Qed.

Lemma StronglySorted_pair (i : nat) (js : list nat) :
  StronglySorted Nat.lt js -> StronglySorted lexlt (map (pair i) js).
Proof.
  induction 1 as [|j js Hjs IH Hj]; cbn [map]; constructor; [exact IH|].
  apply Forall_forall. intros q Hq. apply in_map_iff in Hq as (j' & <- & Hj').
  rewrite Forall_forall in Hj. right. cbn. split; [reflexivity|now apply Hj].
Qed.

(** Blocks labelled by increasing first components, each block sorted, make
    a sorted list. *)
Lemma StronglySorted_blocks (f : nat -> list (nat * nat)) (l : list nat) :
  StronglySorted Nat.lt l ->
  (forall i, StronglySorted lexlt (f i)) ->
  (forall i q, In q (f i) -> fst q = i) ->
  StronglySorted lexlt (flat_map f l).
Proof.
  intros Hl Hsorted Hfst.
  induction Hl as [|i l Hl IH Hi]; cbn [flat_map]; [constructor|].
  apply StronglySorted_app; [apply Hsorted|exact IH|].
  intros x y Hx Hy. apply in_flat_map in Hy as (k & Hk & Hy).
  rewrite Forall_forall in Hi. specialize (Hi _ Hk).
  left. rewrite (Hfst _ _ Hx), (Hfst _ _ Hy). exact Hi.
Qed.

(** *** The whole scan *)

Lemma map_flat_map {A B C} (g : B -> C) (f : A -> list B) (l : list A) :
  map g (flat_map f l) = flat_map (fun x => map g (f x)) l.
Proof.
  induction l as [|x l IH]; cbn [flat_map map]; [reflexivity|].
  now rewrite map_app, IH.
Qed.

Lemma synapseScan_endpoints (cap : nat) (maxDistance : R) (positions : list R)
    (n : nat) :
  map endpoints (synapseScan cap maxDistance positions n)
  = discovered cap maxDistance positions n.
Proof.
  unfold synapseScan, discovered. rewrite map_flat_map.
  apply flat_map_ext. intros i.
  rewrite synapseInner_endpoints by lia. now rewrite Nat.sub_0_r.
Qed.

Lemma discovered_sorted (cap : nat) (maxDistance : R) (positions : list R)
    (n : nat) :
  StronglySorted lexlt (discovered cap maxDistance positions n).
Proof.
  unfold discovered. apply StronglySorted_blocks.
  - apply StronglySorted_seq.
  - intros i. apply StronglySorted_pair, StronglySorted_firstn,
      StronglySorted_filter, StronglySorted_seq.
  - intros i q Hq. apply in_map_iff in Hq as (j & <- & _). reflexivity.
Qed.

Lemma synapseScan_In (cap : nat) (maxDistance : R) (positions : list R)
    (n : nat) (c : Connection) :
  In c (synapseScan cap maxDistance positions n) ->
  (src c < dst c < n)%nat
  /\ tryConnect maxDistance positions (src c) (dst c) = Some c.
Proof.
  unfold synapseScan. intros Hin.
  apply in_flat_map in Hin as (i & Hi & Hin).
  apply synapseInner_In in Hin as (j & Hj & Htry).
  apply in_seq in Hi. apply in_seq in Hj.
  destruct (tryConnect_Some _ _ _ _ _ Htry) as (Hs & Hd & _).
  rewrite Hs, Hd. split; [lia|exact Htry].
Qed.

Lemma originatedBy_app (i : nat) (l1 l2 : list Connection) :
  originatedBy i (l1 ++ l2) = originatedBy i l1 ++ originatedBy i l2.
Proof. apply filter_app. Qed.

Lemma originatedBy_same (i : nat) (l : list Connection) :
  Forall (fun c => src c = i) l -> originatedBy i l = l.
Proof.
  induction 1 as [|c l Hc Hl IH]; cbn [originatedBy filter]; [reflexivity|].
  rewrite Hc, Nat.eqb_refl. f_equal. exact IH.
Qed.

Lemma originatedBy_other (i k : nat) (l : list Connection) :
  k <> i -> Forall (fun c => src c = k) l -> originatedBy i l = [].
Proof.
  intros Hne. induction 1 as [|c l Hc Hl IH]; cbn [originatedBy filter];
    [reflexivity|].
  rewrite Hc. destruct (Nat.eqb_spec k i); [contradiction|exact IH].
Qed.

(** The connections that start at [i] are exactly the output of the inner
    loop run for [i]. *)
Lemma originatedBy_blocks (i : nat) (f : nat -> list Connection) (l : list nat) :
  (forall k, Forall (fun c => src c = k) (f k)) ->
  NoDup l ->
  originatedBy i (flat_map f l) = if in_dec Nat.eq_dec i l then f i else [].
Proof.
  intros Hsrc. induction 1 as [|k l Hk Hl IH]; cbn [flat_map].
  - reflexivity.
  - rewrite originatedBy_app, IH.
    destruct (in_dec Nat.eq_dec i (k :: l)) as [Hin|Hnin];
      destruct (in_dec Nat.eq_dec i l) as [Hin'|Hnin'].
    + assert (k <> i) by (intros ->; contradiction).
      now rewrite (originatedBy_other i k).
    + destruct Hin as [->|]; [|contradiction].
      now rewrite originatedBy_same, app_nil_r.
    + exfalso. apply Hnin. now right.
    + assert (k <> i) by (intros ->; apply Hnin; now left).
      now rewrite (originatedBy_other i k).
Qed.

Lemma originatedBy_scan (cap : nat) (maxDistance : R) (positions : list R)
    (n i : nat) :
  originatedBy i (synapseScan cap maxDistance positions n)
  = if in_dec Nat.eq_dec i (seq 0 n)
    then synapseInner cap maxDistance positions i (seq (S i) (n - S i)) 0
    else [].
Proof.
  unfold synapseScan.
  apply (originatedBy_blocks i
           (fun k => synapseInner cap maxDistance positions k
                       (seq (S k) (n - S k)) 0%nat)).
  - intros k. apply synapseInner_src.
  - apply seq_NoDup.
Qed.

Lemma synapseScan_degree (cap : nat) (maxDistance : R) (positions : list R)
    (n i : nat) :
  (length (originatedBy i (synapseScan cap maxDistance positions n))
   <= cap + 1)%nat.
Proof.
  rewrite originatedBy_scan.
  destruct (in_dec Nat.eq_dec i (seq 0 n)); cbn [length]; [|lia].
  rewrite Nat.add_1_r. apply synapseInner_length.
Qed.

(** The exact number: all the neighbours in range when there are at most
    [cap + 1] of them, and [cap + 1] otherwise. *)
Lemma synapseScan_degree_exact (cap : nat) (maxDistance : R)
    (positions : list R) (n i : nat) :
  length (originatedBy i (synapseScan cap maxDistance positions n))
  = if (i <? n)%nat
    then Nat.min (cap + 1)
           (length (filter (nearb maxDistance positions i)
                      (seq (S i) (n - S i))))
    else 0%nat.
Proof.
  rewrite originatedBy_scan.
  destruct (in_dec Nat.eq_dec i (seq 0 n)) as [Hin|Hnin];
    destruct (Nat.ltb_spec i n) as [Hlt|Hge].
  - rewrite <- (length_map endpoints), synapseInner_endpoints by lia.
    rewrite length_map, length_firstn, Nat.sub_0_r, Nat.add_1_r. reflexivity.
  - apply in_seq in Hin. lia.
  - exfalso. apply Hnin, in_seq. lia.
  - reflexivity.
Qed.

(** C1.  No point originates more than [maxDegreePerPoint + 1]
    connections, that is 6 with the cap 5 of the script: the connections
    whose lower index is [i] are those of one run of the inner loop, which
    counts each emitted connection and stops only once the count is above
    the cap; so point [i] originates all its neighbours in range when
    there are at most [cap + 1] of them, and exactly [cap + 1] otherwise. *)
Theorem degree_at_most_cap_plus_one :
  (forall cap maxDistance positions n i,
     (length (originatedBy i (synapseScan cap maxDistance positions n))
      <= cap + 1)%nat)
  /\ (forall cfg positions i,
        (length (originatedBy i (generateSynapses cfg positions))
         <= maxDegreePerPoint + 1)%nat)
  /\ (maxDegreePerPoint + 1 = 6)%nat
  /\ (forall cfg positions i,
        length (originatedBy i (generateSynapses cfg positions))
        = if (i <? neuronCount cfg)%nat
          then Nat.min 6
                 (length (filter (nearb (connectionDistance cfg) positions i)
                            (seq (S i) (neuronCount cfg - S i))))
          else 0%nat).
Proof.
  split; [exact synapseScan_degree|].
  split; [intros cfg positions i; apply synapseScan_degree|].
  split; [reflexivity|].
  intros cfg positions i. apply synapseScan_degree_exact.
Qed.

(** C2.  Every connection of the output joins two points of the point list
    whose Euclidean distance is strictly below [connectionDistance], which
    is 15 in the configuration of the script. *)
Theorem connections_within_distance :
  (forall cfg positions,
     Forall (fun c =>
               readVec positions (src c) = Some (p1 c)
               /\ readVec positions (dst c) = Some (p2 c)
               /\ distanceTo (p1 c) (p2 c) < connectionDistance cfg)
       (generateSynapses cfg positions))
  /\ (forall positions,
        Forall (fun c => distanceTo (p1 c) (p2 c) < 15)
          (generateSynapses CONFIG positions)).
Proof.
  assert (H : forall cfg positions,
             Forall (fun c =>
                       readVec positions (src c) = Some (p1 c)
                       /\ readVec positions (dst c) = Some (p2 c)
                       /\ distanceTo (p1 c) (p2 c) < connectionDistance cfg)
               (generateSynapses cfg positions)).
  { intros cfg positions. apply Forall_forall. intros c Hin.
    apply synapseScan_In in Hin as (_ & Htry).
    now destruct (tryConnect_Some _ _ _ _ _ Htry) as (_ & _ & Ha & Hb & Hd). }
  split; [exact H|].
  intros positions. specialize (H CONFIG positions).
  eapply Forall_impl; [|exact H]. cbn. tauto.
Qed.

(** *** The scan against the specification's builder *)

Lemma euclidean_distanceTo (a b : Vector3) : euclidean a b = distanceTo a b.
Proof. unfold euclidean, distanceTo. f_equal. ring. Qed.

Lemma within_Rltb (maxDistance : R) (a b : Vector3) :
  within maxDistance a b = Rltb (distanceTo a b) maxDistance.
Proof. unfold within, Rltb. now rewrite euclidean_distanceTo. Qed.

(** The test of the scan on an array that holds the points [points]. *)
Lemma tryConnect_points (maxDistance : R) (points : list Vector3)
    (i j : nat) (a b : Vector3) :
  nth_error points i = Some a ->
  nth_error points j = Some b ->
  tryConnect maxDistance (flat_map coords points) i j
  = if within maxDistance a b
    then Some {| src := i; dst := j; p1 := a; p2 := b |}
    else None.
Proof.
  intros Ha Hb. unfold tryConnect.
  now rewrite !readVec_coords, Ha, Hb, within_Rltb.
Qed.

(** The inner loop, run over indices [js] that hold the points [bs]. *)
Lemma synapseInner_ends (cap : nat) (maxDistance : R) (points : list Vector3)
    (i : nat) (a : Vector3) (js : list nat) (bs : list Vector3) :
  nth_error points i = Some a ->
  Forall2 (fun j b => nth_error points j = Some b) js bs ->
  forall connections,
    (connections <= cap)%nat ->
    map ends
      (synapseInner cap maxDistance (flat_map coords points) i js connections)
    = map (pair a)
        (firstn (S cap - connections) (filter (within maxDistance a) bs)).
Proof.
  intros Ha. induction 1 as [|j b js bs Hb Hrest IH]; intros k Hk;
    cbn [synapseInner filter].
  - now rewrite firstn_nil.
  - rewrite (tryConnect_points _ _ _ _ _ _ Ha Hb).
    destruct (within maxDistance a b).
    + replace (S cap - k)%nat with (S (cap - k)) by lia.
      cbn [firstn map ends p1 p2]. f_equal.
      destruct (Nat.ltb_spec cap (S k)) as [Hbreak|Hgo].
      * replace (cap - k)%nat with 0%nat by lia. reflexivity.
      * now rewrite IH by lia.
    + now apply IH.
Qed.

(** The indices from [length before] on hold the points after [before]. *)
Lemma indices_hold_points (later before : list Vector3) :
  Forall2 (fun j b => nth_error (before ++ later) j = Some b)
    (seq (length before) (length later)) later.
Proof.
  revert before. induction later as [|b later IH]; intros before;
    cbn [length seq]; constructor.
  - rewrite nth_error_app2 by lia. now rewrite Nat.sub_diag.
  - specialize (IH (before ++ [b])).
    rewrite <- app_assoc, length_app in IH. cbn [app length] in IH.
    now rewrite Nat.add_1_r in IH.
Qed.

Lemma indices_after (points : list Vector3) (k : nat) :
  (k <= length points)%nat ->
  Forall2 (fun j b => nth_error points j = Some b)
    (seq k (length points - k)) (skipn k points).
Proof.
  intros Hk.
  pose proof (indices_hold_points (skipn k points) (firstn k points)) as H.
  rewrite firstn_skipn, length_firstn, length_skipn in H.
  now rewrite Nat.min_l in H by exact Hk.
Qed.

(** The outer loop of the specification's builder, by index. *)
Lemma nestedScan_by_index (maxDistance : R) (cap : nat)
    (points : list Vector3) :
  flat_map
    (fun i =>
       match nth_error points i with
       | Some a =>
           map (pair a)
             (firstn (S cap)
                (filter (within maxDistance a) (skipn (S i) points)))
       | None => []
       end)
    (seq 0 (length points))
  = nestedScan maxDistance cap points.
Proof.
  induction points as [|p later IH]; [reflexivity|].
  cbn [length seq flat_map nth_error skipn nestedScan]. f_equal.
  rewrite <- seq_shift, flat_map_map. exact IH.
Qed.

Lemma flat_map_ext_in {A B} (f g : A -> list B) (l : list A) :
  (forall x, In x l -> f x = g x) -> flat_map f l = flat_map g l.
Proof.
  intros H. induction l as [|x l IH]; cbn [flat_map]; [reflexivity|].
  rewrite (H x) by now left. f_equal. apply IH. intros y Hy. apply H.
  now right.
Qed.

Lemma synapseScan_ends (cap : nat) (maxDistance : R) (points : list Vector3) :
  map ends
    (synapseScan cap maxDistance (flat_map coords points) (length points))
  = nestedScan maxDistance cap points.
Proof.
  rewrite <- nestedScan_by_index. unfold synapseScan. rewrite map_flat_map.
  apply flat_map_ext_in. intros i Hi. apply in_seq in Hi.
  destruct (nth_error points i) as [a|] eqn:Ha.
  - rewrite (synapseInner_ends cap maxDistance points i a
               (seq (S i) (length points - S i)) (skipn (S i) points) Ha)
      by (try apply indices_after; lia).
    now rewrite Nat.sub_0_r.
  - apply nth_error_None in Ha. lia.
Qed.

Lemma linePositions_ends (cs : list Connection) :
  linePositions cs = flat_map segmentCoords (map ends cs).
Proof. unfold linePositions. now rewrite flat_map_map. Qed.

Lemma synapseScan_source (cap : nat) (maxDistance : R) (points : list Vector3)
    (n : nat) :
  Forall (fun c =>
            nth_error points (src c) = Some (p1 c)
            /\ nth_error points (dst c) = Some (p2 c))
    (synapseScan cap maxDistance (flat_map coords points) n).
Proof.
  apply Forall_forall. intros c Hin. apply synapseScan_In in Hin as (_ & Htry).
  destruct (tryConnect_Some _ _ _ _ _ Htry) as (_ & _ & Ha & Hb & _).
  now rewrite readVec_coords in Ha, Hb.
Qed.

(** The lines depend on the draws only through the positions. *)
Lemma lines_from_position_draws (setHex setHex' : Z -> Color) (cfg : Config)
    (rand rand' : Rand) :
  (forall i k, (i < neuronCount cfg)%nat -> (k < 3)%nat ->
               draw rand i k = draw rand' i k) ->
  snd (generateNeuralNetwork setHex cfg rand)
  = snd (generateNeuralNetwork setHex' cfg rand').
Proof.
  intros Hsame. unfold generateNeuralNetwork. cbn [snd].
  rewrite !generateNeurons_closed. cbn [positions].
  do 3 f_equal. apply map_ext_in. intros i Hi. apply in_seq in Hi.
  unfold neuronPosition, sphereNeuron.
  now rewrite !(Hsame i) by lia.
Qed.

(** C5.  The connection list is the sequence the nested scan discovers.
    For a list of points stored in the position array, the connections,
    by value and in order, are those of the builder of the specification:
    the points in their order, each joined to the first
    [maxDegreePerPoint + 1] later points within range, in their order;
    the line array is these connections, six numbers each; every
    connection holds the points found at its two indices, and the index
    pairs are strictly increasing in the order "first [i], then [j]".
    The builder reads no random draw: two runs of the generator whose
    position draws agree, whatever the other draws and the colours, give
    the same lines. *)
Theorem connections_in_scan_order :
  (forall points maxDistance,
     let cfg := {| neuronCount := length points;
                   connectionDistance := maxDistance |} in
     let cs := generateSynapses cfg (flat_map coords points) in
     map ends cs = nestedScan maxDistance 5 points
     /\ linePositions cs
        = flat_map segmentCoords (nestedScan maxDistance 5 points)
     /\ Forall (fun c =>
                  nth_error points (src c) = Some (p1 c)
                  /\ nth_error points (dst c) = Some (p2 c)) cs)
  /\ (forall cfg positions,
        StronglySorted lexlt (map endpoints (generateSynapses cfg positions)))
  /\ (forall setHex setHex' cfg rand rand',
        (forall i k, (i < neuronCount cfg)%nat -> (k < 3)%nat ->
                     draw rand i k = draw rand' i k) ->
        snd (generateNeuralNetwork setHex cfg rand)
        = snd (generateNeuralNetwork setHex' cfg rand')).
Proof.
  split; [|split].
  - intros points maxDistance. cbv zeta. unfold generateSynapses.
    cbn [neuronCount connectionDistance].
    change maxDegreePerPoint with 5%nat.
    rewrite linePositions_ends, synapseScan_ends.
    split; [reflexivity|]. split; [reflexivity|].
    apply synapseScan_source.
  - intros cfg positions. unfold generateSynapses.
    rewrite synapseScan_endpoints. apply discovered_sorted.
  - exact lines_from_position_draws.
Qed.

Lemma euclidean_same (p : Vector3) : euclidean p p = 0.
Proof.
  unfold euclidean.
  replace ((vx p - vx p) ^ 2 + (vy p - vy p) ^ 2 + (vz p - vz p) ^ 2)
    with 0 by ring.
  apply sqrt_0.
Qed.

(** C5 at two neurons drawn at the same place, in two runs that differ in
    the colour draws and in the colours: both runs give the one segment
    that joins the two neurons. *)
Lemma connections_in_scan_order_witness :
  let cfg := {| neuronCount := 2; connectionDistance := 15 |} in
  let rand : Rand := fun _ => 1/2 in
  let rand' : Rand := fun k => if (k mod 5 =? 3)%nat then 19/20 else 1/2 in
  let p := flatten (spherePoint (1/2) (1/2) (1/2)) in
  snd (generateNeuralNetwork (fun _ => mkColor 1 1 1) cfg rand)
  = coords p ++ coords p
  /\ snd (generateNeuralNetwork (fun _ => mkColor 0 0 0) cfg rand')
     = coords p ++ coords p.
Proof.
  cbv zeta.
  destruct connections_in_scan_order as (Hscan & _ & Hdraws).
  set (p := flatten (spherePoint (1/2) (1/2) (1/2))).
  assert (Hlines :
            snd (generateNeuralNetwork (fun _ => mkColor 1 1 1)
                   {| neuronCount := 2; connectionDistance := 15 |}
                   (fun _ => 1/2))
            = coords p ++ coords p).
  { destruct (Hscan [p; p] 15) as (_ & Hline & _).
    cbv zeta in Hline. cbn [length] in Hline.
    unfold generateNeuralNetwork. cbn [snd].
    replace (positions
               (generateNeurons (fun _ => mkColor 1 1 1)
                  {| neuronCount := 2; connectionDistance := 15 |}
                  (fun _ => 1/2)))
      with (flat_map coords [p; p]) by reflexivity.
    rewrite Hline. cbn [nestedScan filter].
    unfold within. rewrite euclidean_same.
    destruct (Rlt_dec 0 15) as [_|H]; [|exfalso; lra].
    reflexivity. }
  split; [exact Hlines|].
  rewrite <- Hlines. symmetry. apply Hdraws.
  intros i k Hi Hk. cbn [neuronCount] in Hi.
  destruct i as [|[|i]]; [| |lia];
    destruct k as [|[|[|k]]]; try lia; reflexivity.
Defined.

(** C9.  The scan emits no self-connection and no pair twice: in every
    connection the lower index is strictly below the higher one, and the
    pairs of indices of the output, ordered or not, are pairwise
    distinct. *)
Theorem connections_distinct_pairs (cfg : Config) (positions : list R) :
  Forall (fun c => (src c < dst c)%nat) (generateSynapses cfg positions)
  /\ NoDup (map endpoints (generateSynapses cfg positions))
  /\ NoDup (map unordered (generateSynapses cfg positions)).
Proof.
  assert (Hlt : Forall (fun c => (src c < dst c)%nat)
                  (generateSynapses cfg positions)).
  { apply Forall_forall. intros c Hin.
    apply synapseScan_In in Hin as (Hlt & _). lia. }
  assert (Hnodup : NoDup (map endpoints (generateSynapses cfg positions))).
  { apply (StronglySorted_NoDup lexlt); [exact lexlt_irrefl|].
    unfold generateSynapses. rewrite synapseScan_endpoints.
    apply discovered_sorted. }
  split; [exact Hlt|]. split; [exact Hnodup|].
  replace (map unordered (generateSynapses cfg positions))
    with (map endpoints (generateSynapses cfg positions)); [exact Hnodup|].
  apply map_ext_in. intros c Hin. rewrite Forall_forall in Hlt.
  specialize (Hlt c Hin). unfold endpoints, unordered.
  rewrite Nat.min_l, Nat.max_r by lia. reflexivity.
Qed.

(** ** Scenarios *)

Lemma distanceTo_along_x (a b : R) :
  a <= b ->
  distanceTo {| vx := a; vy := 0; vz := 0 |} {| vx := b; vy := 0; vz := 0 |}
  = b - a.
Proof.
  intros Hab. unfold distanceTo; simpl.
  replace ((a - b) * (a - b) + (0 - 0) * (0 - 0) + (0 - 0) * (0 - 0))
    with ((b - a) * (b - a)) by lra.
  apply sqrt_square. lra.
Qed.

(** No point, no connection. *)
Example no_point_no_connection (setHex : Z -> Color) (rand : Rand) :
  generateNeuralNetwork setHex {| neuronCount := 0; connectionDistance := 15 |}
    rand
  = (emptyBuffers, []).
Proof. reflexivity. Qed.

(** Two points at distance 10 give exactly one connection. *)
Example two_points_one_connection :
  generateSynapses {| neuronCount := 2; connectionDistance := 15 |}
    [0; 0; 0; 10; 0; 0]
  = [ {| src := 0; dst := 1;
         p1 := {| vx := 0; vy := 0; vz := 0 |};
         p2 := {| vx := 10; vy := 0; vz := 0 |} |} ].
Proof.
  unfold generateSynapses, synapseScan.
  cbn [neuronCount connectionDistance seq flat_map Nat.sub synapseInner app].
  unfold tryConnect, readVec. cbn [Nat.mul Nat.add nth_error].
  rewrite distanceTo_along_x by lra.
  replace (Rltb (10 - 0) 15) with true by (symmetry; apply Rltb_lt; lra).
  reflexivity.
Qed.

(** Two points at distance 15 give none: the test is strict. *)
Example two_points_at_the_threshold :
  generateSynapses {| neuronCount := 2; connectionDistance := 15 |}
    [0; 0; 0; 15; 0; 0]
  = [].
Proof.
  unfold generateSynapses, synapseScan.
  cbn [neuronCount connectionDistance seq flat_map Nat.sub synapseInner app].
  unfold tryConnect, readVec. cbn [Nat.mul Nat.add nth_error].
  rewrite distanceTo_along_x by lra.
  destruct (Rltb (15 - 0) 15) eqn:H; [|reflexivity].
  apply Rltb_lt in H. lra.
Qed.

(** The bound of C1 is reached: among eight points at the same place the
    first one originates six connections, one more than the cap. *)
Example eight_coincident_points :
  length (originatedBy 0
            (generateSynapses {| neuronCount := 8; connectionDistance := 15 |}
               (repeat 0 24)))
  = 6%nat.
Proof.
  unfold generateSynapses. rewrite originatedBy_scan.
  cbn [neuronCount connectionDistance].
  destruct (in_dec Nat.eq_dec 0%nat (seq 0 8)) as [_|Hnin];
    [|exfalso; apply Hnin; now left].
  assert (T : forall j, (j < 8)%nat ->
              tryConnect 15 (repeat 0 24) 0 j
              = Some {| src := 0; dst := j;
                        p1 := {| vx := 0; vy := 0; vz := 0 |};
                        p2 := {| vx := 0; vy := 0; vz := 0 |} |}).
  { intros j Hj. unfold tryConnect, readVec.
    do 8 (destruct j as [|j]; [cbn [Nat.mul Nat.add nth_error repeat];
      rewrite distanceTo_along_x by lra;
      replace (Rltb (0 - 0) 15) with true by (symmetry; apply Rltb_lt; lra);
      reflexivity|]).
    lia. }
  cbn [seq Nat.sub synapseInner].
  rewrite !T by lia. reflexivity.
Qed.

(** * Further properties of the script *)

(** ** Wheel events *)

Lemma wheel_monotone_delta (r deltaY deltaY' : R) :
  deltaY <= deltaY' -> wheel r deltaY <= wheel r deltaY'.
Proof.
  intros H. unfold wheel. cbv zeta.
  assert (Hmin : Rmin 200 (r + deltaY * 0.1) <= Rmin 200 (r + deltaY' * 0.1)).
  { unfold Rmin. destruct (Rle_dec 200 (r + deltaY * 0.1));
      destruct (Rle_dec 200 (r + deltaY' * 0.1)); lra. }
  revert Hmin. generalize (Rmin 200 (r + deltaY * 0.1)) as a.
  generalize (Rmin 200 (r + deltaY' * 0.1)) as b. intros b a Hab.
  unfold Rmax. destruct (Rle_dec 20 a); destruct (Rle_dec 20 b); lra.
Qed.

Lemma wheel_no_scroll (r : R) : 20 <= r <= 200 -> wheel r 0 = r.
Proof.
  intros H. unfold wheel, Rmax, Rmin.
  destruct (Rle_dec 200 (r + 0 * 0.1)); destruct (Rle_dec 20 _); lra.
Qed.

Lemma wheel_scroll_out (r deltaY : R) :
  20 <= r <= 200 -> 0 <= deltaY -> r <= wheel r deltaY.
Proof.
  intros Hr Hd. rewrite <- (wheel_no_scroll r Hr) at 1.
  now apply wheel_monotone_delta.
Qed.

Lemma wheel_scroll_in (r deltaY : R) :
  20 <= r <= 200 -> deltaY <= 0 -> wheel r deltaY <= r.
Proof.
  intros Hr Hd. rewrite <- (wheel_no_scroll r Hr) at 2.
  now apply wheel_monotone_delta.
Qed.

(** X1.  A wheel event follows the scroll: from a radius in [20, 200] a
    delta of zero leaves the radius as it is, a non-negative delta never
    lowers it and a non-positive delta never raises it; and a larger delta
    never gives a smaller radius. *)
Theorem wheel_follows_scroll (r deltaY : R) :
  20 <= r <= 200 ->
  wheel r 0 = r
  /\ (0 <= deltaY -> r <= wheel r deltaY)
  /\ (deltaY <= 0 -> wheel r deltaY <= r)
  /\ (forall deltaY', deltaY <= deltaY' -> wheel r deltaY <= wheel r deltaY').
Proof.
  intros Hr. split; [now apply wheel_no_scroll|]. split; [|split].
  - now apply wheel_scroll_out.
  - now apply wheel_scroll_in.
  - intros deltaY'. apply wheel_monotone_delta.
Qed.

Lemma wheel_follows_scroll_witness :
  wheel 80 0 = 80 /\ 80 <= wheel 80 50 /\ wheel 80 50 <= wheel 80 120.
Proof.
  assert (Hr : 20 <= 80 <= 200) by lra.
  destruct (wheel_follows_scroll 80 50 Hr) as (H0 & Hup & _ & Hmono).
  split; [exact H0|]. split; [apply Hup; lra|apply Hmono; lra].
Defined.

Lemma wheels_scroll_out (deltas : list R) :
  Forall (fun d => 0 <= d) deltas ->
  forall r, 20 <= r <= 200 ->
    r <= wheels deltas r /\ wheels deltas 200 = 200.
Proof.
  induction 1 as [|d deltas Hd Hds IH]; intros r Hr.
  - cbn. lra.
  - cbn [wheels fold_left]. fold (wheels deltas (wheel r d)).
    fold (wheels deltas (wheel 200 d)).
    pose proof (wheel_scroll_out r d Hr) as Hup.
    assert (H200 : wheel 200 d = 200).
    { unfold wheel, Rmax, Rmin.
      destruct (Rle_dec 200 (200 + d * 0.1)); destruct (Rle_dec 20 _); lra. }
    destruct (IH (wheel r d) (wheel_range r d)) as (Hle & Htop).
    rewrite H200. split; [specialize (Hup Hd); lra|exact Htop].
Qed.

Lemma wheels_scroll_in (deltas : list R) :
  Forall (fun d => d <= 0) deltas ->
  forall r, 20 <= r <= 200 ->
    wheels deltas r <= r /\ wheels deltas 20 = 20.
Proof.
  induction 1 as [|d deltas Hd Hds IH]; intros r Hr.
  - cbn. lra.
  - cbn [wheels fold_left]. fold (wheels deltas (wheel r d)).
    fold (wheels deltas (wheel 20 d)).
    pose proof (wheel_scroll_in r d Hr) as Hdown.
    assert (H20 : wheel 20 d = 20).
    { unfold wheel, Rmax, Rmin.
      destruct (Rle_dec 200 (20 + d * 0.1)); destruct (Rle_dec 20 _); lra. }
    destruct (IH (wheel r d) (wheel_range r d)) as (Hle & Hbottom).
    rewrite H20. split; [specialize (Hdown Hd); lra|exact Hbottom].
Qed.

(** X2.  Scrolling in one direction never turns back, and the two ends of
    the range hold: after any sequence of non-negative deltas the radius
    is at least what it was, and a radius of 200 is still 200; after any
    sequence of non-positive deltas the radius is at most what it was, and
    a radius of 20 is still 20. *)
Theorem wheels_one_direction (deltas : list R) (r : R) :
  20 <= r <= 200 ->
  (Forall (fun d => 0 <= d) deltas ->
   r <= wheels deltas r /\ wheels deltas 200 = 200)
  /\ (Forall (fun d => d <= 0) deltas ->
      wheels deltas r <= r /\ wheels deltas 20 = 20).
Proof.
  intros Hr. split; intros H.
  - now apply wheels_scroll_out.
  - now apply wheels_scroll_in.
Qed.

Lemma wheels_one_direction_witness :
  80 <= wheels [100; 2000] 80 /\ wheels [100; 2000] 200 = 200.
Proof.
  assert (Hr : 20 <= 80 <= 200) by lra.
  apply (proj1 (wheels_one_direction [100; 2000] 80 Hr)).
  repeat constructor; lra.
Defined.

(** ** Camera steps *)

Lemma distanceTo_nonneg (a b : Vector3) : 0 <= distanceTo a b.
Proof. apply sqrt_pos. Qed.

Lemma distanceTo_scaled (k : R) (a b a' b' : Vector3) :
  0 <= k ->
  vx a' - vx b' = k * (vx a - vx b) ->
  vy a' - vy b' = k * (vy a - vy b) ->
  vz a' - vz b' = k * (vz a - vz b) ->
  distanceTo a' b' = k * distanceTo a b.
Proof.
  intros Hk Hx Hy Hz. unfold distanceTo. rewrite Hx, Hy, Hz.
  replace (k * (vx a - vx b) * (k * (vx a - vx b))
           + k * (vy a - vy b) * (k * (vy a - vy b))
           + k * (vz a - vz b) * (k * (vz a - vz b)))
    with ((k * k) * ((vx a - vx b) * (vx a - vx b)
                     + (vy a - vy b) * (vy a - vy b)
                     + (vz a - vz b) * (vz a - vz b))) by ring.
  rewrite sqrt_mult_alt by nra. now rewrite sqrt_square.
Qed.

(** X3.  A camera step never takes the camera away from where it is
    heading: the Euclidean distance from the camera to the desired
    position after the step is at most the distance before it. *)
Theorem cameraStep_not_farther
    (time pointerX pointerY radius : R) (p : Vector3) :
  distanceTo (cameraStep time pointerX pointerY radius p)
    (desiredPosition time pointerX pointerY radius)
  <= distanceTo p (desiredPosition time pointerX pointerY radius).
Proof.
  rewrite (distanceTo_scaled 0.95 p
             (desiredPosition time pointerX pointerY radius)).
  - pose proof (distanceTo_nonneg p
                  (desiredPosition time pointerX pointerY radius)). lra.
  - lra.
  - rewrite cameraStep_eq. unfold smoothed, smoothingFactor. cbn [vx]. lra.
  - rewrite cameraStep_eq. unfold smoothed, smoothingFactor. cbn [vy]. lra.
  - rewrite cameraStep_eq. unfold smoothed, smoothingFactor. cbn [vz]. lra.
Qed.

(** A point moved a twentieth of the way towards another point of the
    disc of radius [bound] stays in the disc. *)
Lemma disc_convex_step (x z dx dz bound : R) :
  0 <= bound ->
  x * x + z * z <= bound * bound ->
  dx * dx + dz * dz <= bound * bound ->
  (x + (dx - x) * 0.05) * (x + (dx - x) * 0.05)
  + (z + (dz - z) * 0.05) * (z + (dz - z) * 0.05)
  <= bound * bound.
Proof.
  intros Hb Hp Hd.
  pose proof (Rle_0_sqr x) as Hx. pose proof (Rle_0_sqr z) as Hz.
  pose proof (Rle_0_sqr dx) as Hdx. pose proof (Rle_0_sqr dz) as Hdz.
  pose proof (Rle_0_sqr bound) as Hb2.
  pose proof (Rle_0_sqr (x * dz - z * dx)) as Hcross.
  unfold Rsqr in *.
  assert (E : (x * dx + z * dz) * (x * dx + z * dz)
              = (x * x + z * z) * (dx * dx + dz * dz)
                - (x * dz - z * dx) * (x * dz - z * dx)) by ring.
  assert (HPQ : (x * x + z * z) * (dx * dx + dz * dz)
                <= (bound * bound) * (bound * bound)).
  { apply Rmult_le_compat; lra. }
  remember (x * x + z * z) as P. remember (dx * dx + dz * dz) as Q.
  remember (x * dx + z * dz) as m. remember (bound * bound) as b2.
  assert (Hm : m <= b2).
  { destruct (Rle_dec m b2) as [H|H]; [exact H|].
    assert (b2 * b2 < m * m).
    { apply Rmult_le_0_lt_compat; lra. }
    lra. }
  assert (E5 : 0.05 = 1 / 20) by lra. rewrite E5.
  replace ((x + (dx - x) * (1 / 20)) * (x + (dx - x) * (1 / 20))
           + (z + (dz - z) * (1 / 20)) * (z + (dz - z) * (1 / 20)))
    with (361 / 400 * P + 38 / 400 * m + 1 / 400 * Q)
    by (subst P Q m; field).
  lra.
Qed.

Lemma horizontalSq_step (time pointerX pointerY radius bound : R)
    (p : Vector3) :
  0 <= bound ->
  Rabs radius <= bound ->
  horizontalSq p <= bound * bound ->
  horizontalSq (cameraStep time pointerX pointerY radius p) <= bound * bound.
Proof.
  intros Hb Hr Hp. unfold horizontalSq in *. unfold cameraStep.
  cbn [vx vz].
  apply disc_convex_step; [exact Hb|exact Hp|].
  set (angle := time * 0.1 + pointerX * 0.01).
  pose proof (sin2_cos2 angle) as Hsc. unfold Rsqr in Hsc.
  assert (Hr2 : radius * radius <= bound * bound).
  { unfold Rabs in Hr. destruct (Rcase_abs radius); nra. }
  replace (sin angle * radius * (sin angle * radius)
           + cos angle * radius * (cos angle * radius))
    with ((sin angle * sin angle + cos angle * cos angle) * (radius * radius))
    by ring.
  rewrite Hsc. lra.
Qed.



(** ** Events *)

Lemma run_invariant (P : World -> Prop) (events : list Event) :
  (forall w e, In e events -> P w -> P (handle w e)) ->
  forall w, P w -> P (run events w).
Proof.
  unfold run. induction events as [|e events IH]; intros Hstep w Hw;
    cbn [fold_left]; [exact Hw|].
  apply IH.
  - intros w' e' Hin. apply Hstep. now right.
  - apply Hstep; [now left|exact Hw].
Qed.

(** X5.  Whatever events arrive, in whatever order, after the script has
    loaded: the target radius stays in [20, 200], the camera stays within
    horizontal distance 200 of the vertical axis, and the two shader
    clocks show the same time. *)
Theorem run_keeps_zoom_orbit_and_clocks (events : list Event) :
  let w := run events initialWorld in
  20 <= targetRadius w <= 200
  /\ horizontalSq (cameraPosition w) <= 200 * 200
  /\ neuronTime w = synapseTime w.
Proof.
  cbv zeta.
  apply (run_invariant
           (fun w => 20 <= targetRadius w <= 200
                     /\ horizontalSq (cameraPosition w) <= 200 * 200
                     /\ neuronTime w = synapseTime w)).
  - intros w e _ (Hr & Hh & Ht). destruct e as [cx cy iw ih|deltaY|time];
      cbn [handle mouseMove targetRadius cameraPosition neuronTime synapseTime].
    + auto.
    + split; [apply wheel_range|auto].
    + split; [exact Hr|]. split; [|reflexivity].
      apply horizontalSq_step; [lra| |exact Hh].
      rewrite Rabs_pos_eq; lra.
  - cbn. split; [lra|]. split; [|reflexivity].
    unfold horizontalSq. cbn. lra.
Qed.

Lemma smoothed_abs_bound (previous desired limit : R) :
  Rabs previous <= limit -> Rabs desired <= limit ->
  Rabs (smoothed previous desired) <= limit.
Proof.
  unfold smoothed, smoothingFactor, Rabs.
  destruct (Rcase_abs previous); destruct (Rcase_abs desired);
    destruct (Rcase_abs _); lra.
Qed.

(** X6.  The camera never rises above the pointer: while the height offset
    of every mouse event is at most [limit] in absolute value, so are the
    stored offset and the height of the camera, whatever wheel events and
    frames come in between. *)
Theorem run_keeps_height_within_pointer (limit : R) (events : list Event) :
  0 <= limit ->
  Forall (pointerHeightWithin limit) events ->
  let s := run events initialWorld in
  Rabs (mouseY s) <= limit
  /\ Rabs (vy (cameraPosition s)) <= limit.
Proof.
  intros Hl Hevents. cbv zeta. rewrite Forall_forall in Hevents.
  apply (run_invariant
           (fun s => Rabs (mouseY s) <= limit
                     /\ Rabs (vy (cameraPosition s)) <= limit)).
  - intros s e Hin (Hy & Hc). specialize (Hevents e Hin).
    destruct e as [cx cy iw ih|deltaY|time];
      cbn [handle mouseMove mouseY cameraPosition pointerHeightWithin snd]
        in *.
    + split; [exact Hevents|exact Hc].
    + auto.
    + split; [exact Hy|].
      rewrite cameraStep_eq. cbn [vy desiredPosition].
      now apply smoothed_abs_bound.
  - cbn. rewrite Rabs_R0. lra.
Qed.

Lemma run_keeps_height_within_pointer_witness :
  Rabs (vy (cameraPosition
              (run [MouseMove 100 700 1920 1080; Frame 1; Wheel 30; Frame 2]
                 initialWorld)))
  <= 16.
Proof.
  assert (Hl : 0 <= 16) by lra.
  assert (He : Forall (pointerHeightWithin 16)
                 [MouseMove 100 700 1920 1080; Frame 1; Wheel 30; Frame 2]).
  { constructor; [|repeat constructor].
    cbn [pointerHeightWithin mouseMove snd].
    replace ((700 - 1080 / 2) * 0.1) with 16 by lra.
    rewrite Rabs_pos_eq; lra. }
  exact (proj2 (run_keeps_height_within_pointer 16 _ Hl He)).
Defined.

(** X7.  Frames change nothing but the camera and the clocks, and between
    two input events the height only approaches the pointer: after any
    number of frames, whatever their times, the pointer offsets and the
    target radius are as before, and the height of the camera lies between
    its height before the frames and the pointer's height. *)
Theorem frames_settle_height (times : list R) (w : World) :
  let w' := run (map Frame times) w in
  mouseX w' = mouseX w
  /\ mouseY w' = mouseY w
  /\ targetRadius w' = targetRadius w
  /\ between (vy (cameraPosition w)) (mouseY w) (vy (cameraPosition w'))
  /\ Rabs (vy (cameraPosition w') - mouseY w)
     <= Rabs (vy (cameraPosition w) - mouseY w).
Proof.
  cbv zeta. revert w. unfold run.
  induction times as [|t times IH]; intros w; cbn [map fold_left].
  - unfold between, Rmin, Rmax.
    destruct (Rle_dec (vy (cameraPosition w)) (mouseY w));
    repeat split; lra.
  - assert (Hstep : mouseX (handle w (Frame t)) = mouseX w
                    /\ mouseY (handle w (Frame t)) = mouseY w
                    /\ targetRadius (handle w (Frame t)) = targetRadius w
                    /\ vy (cameraPosition (handle w (Frame t)))
                       = smoothed (vy (cameraPosition w)) (mouseY w)).
    { cbn [handle mouseX mouseY targetRadius cameraPosition].
      rewrite cameraStep_eq. cbn [vy desiredPosition]. repeat split. }
    destruct Hstep as (Sx & Sy & Sr & Sc).
    destruct (IH (handle w (Frame t))) as (Hx & Hy & Hr & Hb & Hc).
    rewrite Sy, Sc in Hb, Hc.
    pose proof (smoothed_between (vy (cameraPosition w)) (mouseY w)) as Hb1.
    pose proof (smoothed_not_farther (vy (cameraPosition w)) (mouseY w))
      as Hc1.
    split; [congruence|]. split; [congruence|]. split; [congruence|].
    split; [|lra].
    unfold between, Rmin, Rmax in *.
    destruct (Rle_dec (vy (cameraPosition w)) (mouseY w));
      destruct (Rle_dec (smoothed (vy (cameraPosition w)) (mouseY w))
                  (mouseY w)); lra.
Qed.

(** ** Generated neurons *)

Lemma firstn_length_app {A} (k : nat) (l1 l2 : list A) :
  k = length l1 -> firstn k (l1 ++ l2) = l1.
Proof.
  intros ->. induction l1 as [|x l1 IH]; cbn [length app firstn];
    [reflexivity|now rewrite IH].
Qed.

Lemma flat_map_length3 {A} (f : A -> list R) (l : list A) :
  (forall x, length (f x) = 3%nat) ->
  length (flat_map f l) = (3 * length l)%nat.
Proof.
  intros Hf. induction l as [|x l IH]; cbn [flat_map length];
    [reflexivity|rewrite length_app, Hf, IH; lia].
Qed.

(** X8.  The three attribute arrays describe the same number of vertices,
    and the loop makes five calls of [Math.random] for each: after the
    loop [positions] and [colors] hold three entries per neuron, [sizes]
    one, and [5 * neuronCount] draws have been consumed. *)
Theorem neuron_buffers_sizes
    (setHex : Z -> Color) (cfg : Config) (rand : Rand) :
  let b := generateNeurons setHex cfg rand in
  length (positions b) = (3 * neuronCount cfg)%nat
  /\ length (colors b) = (3 * neuronCount cfg)%nat
  /\ length (sizes b) = neuronCount cfg
  /\ snd (neuronLoop setHex (neuronCount cfg) emptyBuffers rand 0%nat)
     = (5 * neuronCount cfg)%nat.
Proof.
  cbv zeta. unfold generateNeurons. rewrite neuronLoop_closed.
  cbn [fst snd positions colors sizes emptyBuffers app].
  rewrite !flat_map_length3 by reflexivity.
  now rewrite length_map, length_seq.
Qed.

(** X9.  Asking for more neurons keeps the ones already there: with the
    same sequence of draws, the arrays generated for a smaller count are
    the beginnings of the arrays generated for a larger count. *)
Theorem more_neurons_keep_the_first
    (setHex : Z -> Color) (cfg cfg' : Config) (rand : Rand) :
  (neuronCount cfg <= neuronCount cfg')%nat ->
  let b := generateNeurons setHex cfg rand in
  let b' := generateNeurons setHex cfg' rand in
  positions b = firstn (3 * neuronCount cfg) (positions b')
  /\ colors b = firstn (3 * neuronCount cfg) (colors b')
  /\ sizes b = firstn (neuronCount cfg) (sizes b').
Proof.
  intros Hle. cbv zeta. rewrite !generateNeurons_closed.
  cbn [positions colors sizes].
  set (n := neuronCount cfg) in *. set (n' := neuronCount cfg') in *.
  replace n' with (n + (n' - n))%nat by lia.
  rewrite seq_app, !map_app, !flat_map_app.
  split; [|split]; symmetry; apply firstn_length_app.
  - now rewrite flat_map_length3, length_map, length_seq.
  - now rewrite flat_map_length3, length_map, length_seq.
  - now rewrite length_map, length_seq.
Qed.

Lemma more_neurons_keep_the_first_witness :
  sizes (generateNeurons (fun _ => mkColor 1 1 1)
           {| neuronCount := 1; connectionDistance := 15 |} (fun _ => 1/2))
  = firstn 1
      (sizes (generateNeurons (fun _ => mkColor 1 1 1)
                {| neuronCount := 3; connectionDistance := 15 |}
                (fun _ => 1/2))).
Proof.
  assert (Hle : (neuronCount {| neuronCount := 1; connectionDistance := 15 |}
                 <= neuronCount {| neuronCount := 3; connectionDistance := 15 |})%nat)
    by (cbn; lia).
  exact (proj2 (proj2 (more_neurons_keep_the_first (fun _ => mkColor 1 1 1)
                         _ _ (fun _ => 1/2) Hle))).
Defined.

(** X10.  The cloud is a flattened ball: every stored position lies in
    the ellipsoid [x^2 + (y / 0.6)^2 + z^2 <= 40^2], so its height is at
    most 24 and its other two coordinates at most 40 in absolute value. *)
Theorem neuron_within_ellipsoid
    (setHex : Z -> Color) (cfg : Config) (rand : Rand) (i : nat) :
  uniform01 rand ->
  (i < neuronCount cfg)%nat ->
  exists p,
    readVec (positions (generateNeurons setHex cfg rand)) i = Some p
    /\ vx p * vx p + (vy p / 0.6) * (vy p / 0.6) + vz p * vz p <= 40 * 40
    /\ Rabs (vx p) <= 40
    /\ Rabs (vy p) <= 24
    /\ Rabs (vz p) <= 40.
Proof.
  intros Hrand Hi. exists (neuronPosition rand i).
  split; [now apply generated_position|].
  unfold neuronPosition, sphereNeuron.
  pose proof (uniform01_draw rand i 0 Hrand) as Hu.
  pose proof (cbrt_unit_interval _ Hu) as Hc.
  pose proof (spherePoint_norm_sq (draw rand i 0) (draw rand i 1)
                (draw rand i 2)) as Hsq.
  cbv zeta in Hsq.
  set (q := spherePoint (draw rand i 0) (draw rand i 1) (draw rand i 2)) in *.
  unfold flatten. cbn [vx vy vz].
  assert (Hball : vx q * vx q + vy q * vy q + vz q * vz q <= 40 * 40).
  { rewrite Hsq. nra. }
  pose proof (Rle_0_sqr (vx q)) as Hx. pose proof (Rle_0_sqr (vy q)) as Hy.
  pose proof (Rle_0_sqr (vz q)) as Hz. unfold Rsqr in Hx, Hy, Hz.
  assert (Habs : forall t, t * t <= 40 * 40 -> Rabs t <= 40).
  { intros t Ht. unfold Rabs. destruct (Rcase_abs t); nra. }
  split.
  { replace (vy q * 0.6 / 0.6) with (vy q) by lra. exact Hball. }
  split; [apply Habs; lra|].
  split; [|apply Habs; lra].
  assert (Rabs (vy q) <= 40) by (apply Habs; lra).
  rewrite Rabs_mult, (Rabs_pos_eq 0.6) by lra. lra.
Qed.

Lemma neuron_within_ellipsoid_witness :
  exists p,
    readVec (positions (generateNeurons (fun _ => mkColor 1 1 1) CONFIG
                          (fun _ => 1/2))) 7%nat
    = Some p
    /\ Rabs (vy p) <= 24.
Proof.
  assert (Hrand : uniform01 (fun _ => 1/2)) by (intros k; lra).
  assert (Hi : (7 < neuronCount CONFIG)%nat) by (unfold CONFIG; cbn; lia).
  destruct (neuron_within_ellipsoid (fun _ => mkColor 1 1 1) CONFIG
              (fun _ => 1/2) 7%nat Hrand Hi) as (p & Hp & _ & _ & Hy & _).
  exists p. split; [exact Hp|exact Hy].
Defined.

(** ** More on the synapse scan *)

(** The first [k] elements that pass a test in a range of indices. *)
Lemma In_firstn_filter_seq (f : nat -> bool) (m : nat) :
  forall a k j,
    In j (firstn k (filter f (seq a m)))
    <-> (a <= j < a + m)%nat
        /\ f j = true
        /\ (length (filter f (seq a (j - a))) < k)%nat.
Proof.
  induction m as [|m IH]; intros a k j; cbn [seq filter].
  - rewrite firstn_nil. cbn [In]. split; [contradiction|lia].
  - assert (Hshift : (a < j)%nat ->
                     filter f (seq a (j - a))
                     = if f a then a :: filter f (seq (S a) (j - S a))
                       else filter f (seq (S a) (j - S a))).
    { intros Hlt. replace (j - a)%nat with (S (j - S a)) by lia.
      reflexivity. }
    destruct (f a) eqn:Hfa.
    + destruct k as [|k]; cbn [firstn In].
      * split; [contradiction|lia].
      * rewrite IH. split.
        -- intros [<-|(Hr & Hf & Hl)].
           ++ split; [lia|]. split; [exact Hfa|].
              rewrite Nat.sub_diag. cbn. lia.
           ++ split; [lia|]. split; [exact Hf|].
              rewrite Hshift by lia. cbn [length]. lia.
        -- intros (Hr & Hf & Hl).
           destruct (Nat.eq_dec a j) as [->|Hne]; [now left|right].
           split; [lia|]. split; [exact Hf|].
           rewrite Hshift in Hl by lia. cbn [length] in Hl. lia.
    + rewrite IH. split.
      * intros (Hr & Hf & Hl). split; [lia|]. split; [exact Hf|].
        now rewrite Hshift by lia.
      * intros (Hr & Hf & Hl).
        assert (j <> a) by (intros ->; congruence).
        split; [lia|]. split; [exact Hf|].
        now rewrite Hshift in Hl by lia.
Qed.

Lemma In_discovered (cap : nat) (maxDistance : R) (positions : list R)
    (n i j : nat) :
  In (i, j) (discovered cap maxDistance positions n)
  <-> (i < j < n)%nat
      /\ nearb maxDistance positions i j = true
      /\ (earlierNear maxDistance positions i j <= cap)%nat.
Proof.
  unfold discovered, earlierNear. rewrite in_flat_map. split.
  - intros (i' & Hi' & Hin). apply in_seq in Hi'.
    apply in_map_iff in Hin as (j' & [= <- <-] & Hin).
    apply In_firstn_filter_seq in Hin as (Hr & Hf & Hl).
    split; [lia|]. split; [exact Hf|lia].
  - intros (Hr & Hf & Hl). exists i. split; [apply in_seq; lia|].
    apply in_map, In_firstn_filter_seq.
    split; [lia|]. split; [exact Hf|lia].
Qed.

(** X11.  Which pairs are connected: the pair [(i, j)] is in the output
    exactly when [i < j < neuronCount], the two points are within range,
    and at most five of the points between them (indices above [i] and
    below [j]) are within range of point [i]. *)
Theorem connected_iff (cfg : Config) (positions : list R) (i j : nat) :
  In (i, j) (map endpoints (generateSynapses cfg positions))
  <-> (i < j < neuronCount cfg)%nat
      /\ nearb (connectionDistance cfg) positions i j = true
      /\ (earlierNear (connectionDistance cfg) positions i j <= 5)%nat.
Proof.
  unfold generateSynapses. rewrite synapseScan_endpoints.
  apply In_discovered.
Qed.

Lemma flat_map_length_le {A B} (f : A -> list B) (k : nat) (l : list A) :
  (forall x, (length (f x) <= k)%nat) ->
  (length (flat_map f l) <= k * length l)%nat.
Proof.
  intros Hf. induction l as [|x l IH]; cbn [flat_map length]; [lia|].
  rewrite length_app. specialize (Hf x). lia.
Qed.

Lemma linePositions_length (cs : list Connection) :
  length (linePositions cs) = (6 * length cs)%nat.
Proof.
  unfold linePositions.
  induction cs as [|c cs IH]; cbn [flat_map length app]; [reflexivity|].
  rewrite IH. lia.
Qed.

Lemma synapseScan_length (cap : nat) (maxDistance : R) (positions : list R)
    (n : nat) :
  (length (synapseScan cap maxDistance positions n) <= (cap + 1) * (n - 1))%nat.
Proof.
  unfold synapseScan. destruct n as [|n]; [cbn; lia|].
  rewrite seq_S, flat_map_app, length_app. cbn [flat_map Nat.add].
  replace (S n - S n)%nat with 0%nat by lia. cbn [seq synapseInner app length].
  pose proof (flat_map_length_le
                (fun i => synapseInner cap maxDistance positions i
                            (seq (S i) (S n - S i)) 0%nat)
                (cap + 1) (seq 0 n)) as H.
  rewrite length_seq in H.
  replace (S n - 1)%nat with n by lia.
  rewrite Nat.add_0_r. apply H.
  intros i. rewrite Nat.add_1_r. apply synapseInner_length.
Qed.

(** X12.  The line buffer is small: the scan emits at most six connections
    per point except the last one, which starts none, so at most
    [6 * (neuronCount - 1)] segments and [36 * (neuronCount - 1)] numbers,
    six numbers for each segment. *)
Theorem line_buffer_size (cfg : Config) (positions : list R) :
  (length (generateSynapses cfg positions) <= 6 * (neuronCount cfg - 1))%nat
  /\ length (linePositions (generateSynapses cfg positions))
     = (6 * length (generateSynapses cfg positions))%nat
  /\ (length (linePositions (generateSynapses cfg positions))
      <= 36 * (neuronCount cfg - 1))%nat.
Proof.
  pose proof (synapseScan_length maxDegreePerPoint (connectionDistance cfg)
                positions (neuronCount cfg)) as H.
  fold (generateSynapses cfg positions) in H.
  change (maxDegreePerPoint + 1)%nat with 6%nat in H.
  rewrite linePositions_length. split; [exact H|]. split; [reflexivity|lia].
Qed.

(** X13.  A threshold that is zero or negative connects nothing, whatever
    the points: the test is strict and a distance is never negative. *)
Theorem no_connection_without_range (cfg : Config) (positions : list R) :
  connectionDistance cfg <= 0 ->
  generateSynapses cfg positions = [].
Proof.
  intros Hd.
  destruct (generateSynapses cfg positions) as [|c cs] eqn:E; [reflexivity|].
  exfalso.
  assert (Hin : In c (generateSynapses cfg positions)) by (rewrite E; now left).
  apply synapseScan_In in Hin as (_ & Htry).
  destruct (tryConnect_Some _ _ _ _ _ Htry) as (_ & _ & _ & _ & Hlt).
  pose proof (distanceTo_nonneg (p1 c) (p2 c)). lra.
Qed.

Lemma no_connection_without_range_witness :
  generateSynapses {| neuronCount := 2; connectionDistance := 0 |}
    [0; 0; 0; 0; 0; 0]
  = [].
Proof.
  apply no_connection_without_range. cbn. lra.
Defined.

(** ** The scan on the generated cloud *)

Lemma neuronPosition_norm (rand : Rand) (i : nat) :
  uniform01 rand -> norm (neuronPosition rand i) <= 40.
Proof.
  intros Hrand. unfold neuronPosition.
  pose proof (flatten_norm (sphereNeuron rand i)) as Hflat.
  pose proof (uniform01_draw rand i 0 Hrand) as Hu.
  unfold sphereNeuron in *. rewrite spherePoint_norm in Hflat by exact Hu.
  pose proof (cbrt_unit_interval _ Hu). lra.
Qed.

(** X14.  On the generated cloud the scan reads only stored neurons: every
    connection joins the stored positions of two different neurons, lower
    index first, and both ends are at most 40 away from the origin. *)
Theorem network_segments_join_neurons
    (setHex : Z -> Color) (cfg : Config) (rand : Rand) :
  uniform01 rand ->
  Forall (fun c =>
            (src c < dst c < neuronCount cfg)%nat
            /\ p1 c = neuronPosition rand (src c)
            /\ p2 c = neuronPosition rand (dst c)
            /\ norm (p1 c) <= 40
            /\ norm (p2 c) <= 40)
    (generateSynapses cfg (positions (generateNeurons setHex cfg rand))).
Proof.
  intros Hrand. apply Forall_forall. intros c Hin.
  apply synapseScan_In in Hin as (Hr & Htry).
  destruct (tryConnect_Some _ _ _ _ _ Htry) as (_ & _ & Ha & Hb & _).
  rewrite generated_position in Ha, Hb by lia.
  injection Ha as Ha. injection Hb as Hb.
  split; [exact Hr|]. rewrite <- Ha, <- Hb.
  repeat split; now apply neuronPosition_norm.
Qed.

Lemma network_segments_join_neurons_witness :
  Forall (fun c => norm (p1 c) <= 40 /\ norm (p2 c) <= 40)
    (generateSynapses CONFIG
       (positions (generateNeurons (fun _ => mkColor 1 1 1) CONFIG
                     (fun _ => 1/2)))).
Proof.
  assert (Hrand : uniform01 (fun _ => 1/2)) by (intros k; lra).
  eapply Forall_impl;
    [|exact (network_segments_join_neurons (fun _ => mkColor 1 1 1) CONFIG
               (fun _ => 1/2) Hrand)].
  cbn beta. intros c (_ & _ & _ & H1 & H2). split; assumption.
Defined.

(** ** When every later point is in range *)

Lemma filter_all {A} (f : A -> bool) (l : list A) :
  (forall x, In x l -> f x = true) -> filter f l = l.
Proof.
  intros H. induction l as [|x l IH]; cbn [filter]; [reflexivity|].
  rewrite H by now left. f_equal. apply IH. intros y Hy. apply H. now right.
Qed.

Lemma firstn_seq_min (k : nat) :
  forall a m, firstn k (seq a m) = seq a (Nat.min k m).
Proof.
  induction k as [|k IH]; intros a [|m]; cbn [firstn seq Nat.min];
    try reflexivity.
  now rewrite IH.
Qed.

(** X15.  Where the threshold selects nothing, the cap alone decides: a
    point whose distance test succeeds with every later point is connected
    to the points that follow it in the array, the next six of them, or
    all of them when fewer are left. *)
Theorem all_in_range_connects_next_six
    (cfg : Config) (positions : list R) (i : nat) :
  (i < neuronCount cfg)%nat ->
  (forall j, (i < j < neuronCount cfg)%nat ->
             nearb (connectionDistance cfg) positions i j = true) ->
  map endpoints (originatedBy i (generateSynapses cfg positions))
  = map (pair i) (seq (S i) (Nat.min 6 (neuronCount cfg - S i))).
Proof.
  intros Hi Hnear. unfold generateSynapses. rewrite originatedBy_scan.
  destruct (in_dec Nat.eq_dec i (seq 0 (neuronCount cfg))) as [_|Hnin];
    [|exfalso; apply Hnin, in_seq; lia].
  rewrite synapseInner_endpoints by lia.
  rewrite filter_all.
  - rewrite Nat.sub_0_r. change (S maxDegreePerPoint) with 6%nat.
    now rewrite firstn_seq_min.
  - intros j Hj. apply in_seq in Hj. apply Hnear. lia.
Qed.

Lemma all_in_range_connects_next_six_witness :
  map endpoints
    (originatedBy 1
       (generateSynapses {| neuronCount := 4; connectionDistance := 15 |}
          (repeat 0 12)))
  = [(1, 2); (1, 3)]%nat.
Proof.
  apply (all_in_range_connects_next_six
           {| neuronCount := 4; connectionDistance := 15 |} (repeat 0 12)
           1%nat).
  - cbn. lia.
  - cbn [neuronCount connectionDistance]. intros j Hj.
    unfold nearb, tryConnect, readVec.
    destruct j as [|[|[|[|j]]]]; try lia;
      cbn [Nat.mul Nat.add nth_error repeat];
      rewrite distanceTo_along_x by lra;
      replace (Rltb (0 - 0) 15) with true by (symmetry; apply Rltb_lt; lra);
      reflexivity.
Defined.
